(** * Screenshot capturer: a shallow embedding of [src/screenshots/capturer.js]

    The class [Capturer] resolves the destination path of a screenshot, queues
    the staged pipeline (raw capture, existence check, crop, publish,
    thumbnail) under that path, and appends a record to the owning test entry.

    Conventions of the embedding.
    - A JavaScript Number is a binary64 value; a finite one is modelled by the
      rational it denotes ([Q]).  A product is the exact product rounded to
      the nearest value of the format, ties to even ([Binary64.round],
      [JS.mul]); comparison, [Math.floor], [Math.round] and [Math.max] are
      exact on finite Numbers.  NaN is outside the model, and a product of
      magnitude [2^1024] or more stands for the infinity that an overflow
      gives ([Binary64.finite] is the range without overflow).  The two file
      counters are integers ([Z]).
    - [undefined]/[null] is [None]; a value tested for truthiness is tested by
      an explicit function ([truthy_string]: the empty string is falsy).
    - An [async] method is a computation in the monad [M]: it threads the
      mutable state and either returns a value or throws; what was mutated
      before a throw stays mutated.
    - The collaborators that are not part of the class (browser provider,
      file-system primitives, cropper, thumbnail generator, path pattern, Node's
      [path]) are the fields of the class [Collaborators]: every theorem holds
      whatever they do.  *)

From Stdlib Require Import ZArith QArith Qround Qminmax Qabs Qpower Lia Lqa String Ascii Sorted.
From Stdlib.Strings Require Import Byte.
From stdpp Require Import gmap strings list pretty.

Local Open Scope string_scope.
Local Open Scope Z_scope.

(** ** Binary64 *)

(** A JavaScript Number is an IEEE 754 binary64 value.  The finite ones are
    modelled by the rational they denote; the result of an arithmetic
    operation is the exact result rounded to the nearest value of the
    format, a tie going to the even significand. *)
Module Binary64.

Definition pow2 (e : Z) : Q := Qpower 2 e.

(** The integer [k] with [2^k <= |x| < 2^(k+1)], for [x] other than zero. *)
Definition ilog2 (x : Q) : Z :=
  let k := Z.log2 (Z.abs (Qnum x)) - Z.log2 (Zpos (Qden x)) in
  if Qle_bool (pow2 k) (Qabs x) then k else k - 1.

(** The exponent of the last place of [x]: a significand has 53 bits, and
    no exponent is below that of the subnormal numbers. *)
Definition exponent (x : Q) : Z := Z.max (-1074) (ilog2 x - 52).

(** The nearest integer, a tie going to the even one. *)
Definition rne (x : Q) : Z :=
  let f := Qfloor x in
  match (x - inject_Z f ?= 1 # 2)%Q with
  | Lt => f
  | Gt => f + 1
  | Eq => if Z.even f then f else f + 1
  end.

(** Rounding to nearest, ties to even.  A result of magnitude [2^1024] or
    more stands for an overflow, where the machine gives an infinity. *)
Definition round (x : Q) : Q :=
  (inject_Z (rne (x / pow2 (exponent x))) * pow2 (exponent x))%Q.

(** The values of the format, without the bound on the magnitude. *)
Definition in_format (x : Q) : Prop :=
  ∃ m e : Z, Z.abs m < 2 ^ 53 ∧ -1074 ≤ e ∧ (x == inject_Z m * pow2 e)%Q.

(** [x] rounds to a finite Number. *)
Definition finite (x : Q) : Prop := (Qabs (round x) < pow2 1024)%Q.

(** [r] is a value of the format that no other is nearer to [x]. *)
Definition nearest (x r : Q) : Prop :=
  in_format r ∧ ∀ f, in_format f → (Qabs (r - x) <= Qabs (f - x))%Q.

End Binary64.

(** ** JavaScript primitives used by the class *)

Module JS.

(** [!!s] for a value that is either [undefined] or a string. *)
Definition truthy_string (s : option string) : bool :=
  match s with
  | None => false
  | Some s => negb (String.eqb s "")
  end.

(** [a > b] on Numbers. *)
Definition gt (a b : Q) : bool := negb (Qle_bool a b).

Definition Math_max (a b : Q) : Q := if Qle_bool a b then b else a.

Definition Math_floor (x : Q) : Z := Qfloor x.

(** [Math.round]: the nearest integer, a tie going to the larger one. *)
Definition Math_round (x : Q) : Z := Qfloor (x + (1 # 2))%Q.

(** [a * b] on Numbers: the exact product, rounded to the format.  With
    [Binary64.finite (a * b)] the result is a finite Number; a result of
    magnitude [2^1024] or more stands for the infinity that JavaScript
    gives. *)
Definition mul (a b : Q) : Q := Binary64.round (a * b).

(** The Number that a decimal literal denotes. *)
Definition number (q : Q) : Q := Binary64.round q.

(** Expansion of the replacement text of [String.prototype.replace] when the
    pattern is a string (no capture groups): [$$], [$&], [$`] and [$']. *)
Fixpoint expand (repl matched before after : string) : string :=
  match repl with
  | EmptyString => EmptyString
  | String a tl =>
      if Ascii.eqb a "$" then
        match tl with
        | String c rest =>
            if Ascii.eqb c "$" then String "$" (expand rest matched before after)
            else if Ascii.eqb c "&" then matched ++ expand rest matched before after
            else if Ascii.eqb c "`" then before ++ expand rest matched before after
            else if Ascii.eqb c "'" then after ++ expand rest matched before after
            else String a (expand tl matched before after)
        | EmptyString => String a EmptyString
        end
      else String a (expand tl matched before after)
  end.

(** [s.replace(pattern, replacement)] with a string pattern: only the first
    occurrence is replaced; no occurrence leaves [s] as it is. *)
Definition replace (s pattern replacement : string) : string :=
  match String.index 0 pattern s with
  | None => s
  | Some i =>
      let before := String.substring 0 i s in
      let after :=
        String.substring (i + String.length pattern)
          (String.length s - (i + String.length pattern)) s in
      before ++ expand replacement pattern before after ++ after
  end.

End JS.

(** ** Data model *)

(** The page-geometry snapshot sent by the client; its fields are finite
    Numbers. *)
Record PageDimensions := {
  innerWidth : Q;
  documentWidth : Q;
  bodyWidth : Q;
  innerHeight : Q;
  documentHeight : Q;
  bodyHeight : Q;
  dpr : Q
}.

(** A crop rectangle in CSS pixels, as supplied by the caller; its edges
    are finite Numbers. *)
Record CropDimensions := {
  top : Q;
  left : Q;
  bottom : Q;
  right : Q
}.

(** The rectangle in device pixels handed to the cropper. *)
Record ScaledCrop := {
  scaled_top : Z;
  scaled_left : Z;
  scaled_bottom : Z;
  scaled_right : Z
}.

Record ClientArea := {
  width : Z;
  height : Z
}.

Definition Buffer := list byte.

(** One run of the test in one browser: [testEntry.testRuns[browserId]]. *)
Record TestRun := {
  id : string
}.

(** [pathPattern.data]: the two counters this class increments, and the two
    fields it reads when it builds a record. *)
Record PathPatternData := {
  fileIndex : Z;
  errorFileIndex : Z;
  parsedUserAgent_prettyUserAgent : string;
  quarantineAttempt : option Z
}.

(** An element of [testEntry.screenshots]; [screenshotData] is [None] when the
    variable was never assigned ([undefined]). *)
Record Screenshot := {
  testRunId : string;
  screenshotPath : string;
  screenshotData : option Buffer;
  thumbnailPath : string;
  userAgent : string;
  screenshot_quarantineAttempt : option Z;
  takenOnFail : bool
}.

Inductive Warning :=
| screenshotRewritingError (path : string).

Inductive error :=
| TypeError
| Rejected (reason : string).

Inductive outcome (A : Type) :=
| Returned (a : A)
| Thrown (e : error).
Arguments Returned {A} a.
Arguments Thrown {A} e.

(** What [stat] resolves to. *)
Record Stats := {
  isFile : bool
}.

Section Requests.
Context {Image MarkSeed : Type}.

(** The second argument of [_capture]; an absent field is [None]. *)
Record Options := {
  pageDimensions : option PageDimensions;
  cropDimensions : option CropDimensions;
  markSeed : option MarkSeed;
  customPath : option string;
  opt_fullPage : option bool;
  opt_thumbnails : option bool
}.

(** [{}], the default of the second argument. *)
Definition no_options : Options :=
  {| pageDimensions := None; cropDimensions := None; markSeed := None;
     customPath := None; opt_fullPage := None; opt_thumbnails := None |}.

(** The object literal handed to [cropScreenshot]. *)
Record CropOptions := {
  crop_markSeed : option MarkSeed;
  crop_clientAreaDimensions : option ClientArea;
  crop_path : string;
  crop_cropDimensions : option ScaledCrop
}.

(** A collaborator call made by the capturer: its arguments and what it
    resolved to or rejected with. *)
Inductive call :=
| call_takeScreenshot (browserId filePath : string)
    (pageWidth pageHeight : option Z) (fullPage : bool) (result : outcome unit)
| call_stat (path : string) (result : outcome Stats)
| call_readPngFile (path : string) (result : outcome Image)
| call_cropScreenshot (image : Image) (options : CropOptions)
    (result : outcome (option Image))
| call_writePng (path : string) (image : Image) (result : outcome unit)
| call_readFile (path : string) (result : outcome Buffer)
| call_makeDir (path : string) (result : outcome unit)
| call_writeFile (path : string) (data : Buffer) (result : outcome unit)
| call_generateThumbnail (source destination : string) (result : outcome unit).

Definition is_cropScreenshot (c : call) : bool :=
  match c with call_cropScreenshot _ _ _ => true | _ => false end.
Definition is_writePng (c : call) : bool :=
  match c with call_writePng _ _ _ => true | _ => false end.
Definition is_makeDir (c : call) : bool :=
  match c with call_makeDir _ _ => true | _ => false end.
Definition is_writeFile (c : call) : bool :=
  match c with call_writeFile _ _ _ => true | _ => false end.
Definition is_generateThumbnail (c : call) : bool :=
  match c with call_generateThumbnail _ _ _ => true | _ => false end.

(** The resolved destination of one invocation (lines 130-134) together with
    the request it serves: what the queued closure captures. *)
Record Job := {
  job_forError : bool;
  job_options : Options;
  job_thumbnails : bool;
  job_screenshotPath : string;
  job_thumbnailPath : string;
  job_tempPath : string
}.
End Requests.
Arguments Options : clear implicits.
Arguments CropOptions : clear implicits.
Arguments call : clear implicits.
Arguments Job : clear implicits.

(** The immutable fields of a [Capturer]; [enabled] is computed from
    [baseScreenshotsPath] by the constructor and never assigned again. *)
Record Capturer := {
  baseScreenshotsPath : option string;
  testEntry_testRuns : gmap string TestRun;
  browserId : string;
  fullPage : bool;
  thumbnails : bool;
  tempDirectoryPath : string;
  autoTakeOnFails : bool
}.

Definition enabled (this : Capturer) : bool :=
  JS.truthy_string (baseScreenshotsPath this).

(** ** The keyed queue *)

(** Modelled from the spec: the module [../utils/async-queue] ([isInQueue],
    [addToQueue]) is not among the sources.  Section 4.2: "operations queued
    under the same key execute strictly one at a time, in submission order;
    operations under different keys may execute concurrently with no ordering
    guarantee between keys"; a key is in the queue when it "already has a
    pending or in-flight operation"; the key is released when the operation
    ends, whether it failed or not (section 5).  Section 9: "a mapping from key
    to a tail-chained continuation", evicted "once its queue drains".  An
    operation is a ticket, handed out in submission order; the lane of a key
    lists its operations, oldest first, and says whether the oldest one has
    started. *)
Module AsyncQueue.

Record lane := {
  running : bool;
  ops : list nat
}.

Record t := {
  lanes : gmap string lane;
  next : nat
}.

Definition empty : t := {| lanes := ∅; next := 0 |}.

Definition isInQueue (key : string) (q : t) : bool :=
  bool_decide (is_Some (lanes q !! key)).

Definition enqueue (key : string) (q : t) : nat * t :=
  let l :=
    match lanes q !! key with
    | Some l => {| running := running l; ops := ops l ++ [next q] |}
    | None => {| running := false; ops := [next q] |}
    end in
  (next q, {| lanes := <[key:=l]> (lanes q); next := S (next q) |}).

(** The oldest operation of a key starts, unless it has started already. *)
Definition start (key : string) (q : t) : option (nat * t) :=
  match lanes q !! key with
  | Some {| running := false; ops := tk :: rest |} =>
      Some (tk, {| lanes := <[key:={| running := true; ops := tk :: rest |}]> (lanes q);
                   next := next q |})
  | _ => None
  end.

(** The operation in flight under a key. *)
Definition inFlight (key : string) (q : t) : option nat :=
  match lanes q !! key with
  | Some {| running := true; ops := tk :: _ |} => Some tk
  | _ => None
  end.

(** An operation has ended: it leaves its lane, and a lane that drains is
    dropped. *)
Definition leave (key : string) (tk : nat) (q : t) : t :=
  match lanes q !! key with
  | Some l =>
      let rest := List.filter (λ a, negb (Nat.eqb a tk)) (ops l) in
      let running' :=
        running l && negb (bool_decide (List.head (ops l) = Some tk)) in
      {| lanes :=
           match rest with
           | [] => delete key (lanes q)
           | _ :: _ => <[key:={| running := running'; ops := rest |}]> (lanes q)
           end;
         next := next q |}
  | None => q
  end.

End AsyncQueue.

(** ** Collaborators *)

(** What the class calls but does not define.  The asynchronous ones act on an
    abstract [World] (browser, disk) and either resolve or reject; [stat]
    rejects for a path that does not exist.  [joinPath], [dirname] and
    [basename] are Node's [path]; [pathPattern_getPath] renders the naming
    pattern from the current pattern data; [hasImageExtension] and
    [DEFAULT_SCREENSHOT_EXTENSION] are what [correctFilePath] relies on. *)
Class Collaborators (World Image MarkSeed : Type) := {
  provider_takeScreenshot :
    string → string → option Z → option Z → bool → World → outcome unit * World;
  stat : string → World → outcome Stats * World;
  readPngFile : string → World → outcome Image * World;
  cropScreenshot :
    Image → CropOptions MarkSeed → World → outcome (option Image) * World;
  writePng : string → Image → World → outcome unit * World;
  readFile : string → World → outcome Buffer * World;
  makeDir : string → World → outcome unit * World;
  writeFile : string → Buffer → World → outcome unit * World;
  generateThumbnail : string → string → World → outcome unit * World;
  joinPath : list string → string;
  dirname : string → string;
  basename : string → string;
  pathPattern_getPath : PathPatternData → bool → string;
  escapeUserAgent : string → string;
  hasImageExtension : string → bool;
  DEFAULT_SCREENSHOT_EXTENSION : string
}.

(** Modelled from the spec: [correctFilePath] of [../utils/correct-file-path]
    is not among the sources.  Section 4.1: "sanitize it (ensure a valid image
    extension; default to the system's default screenshot extension if
    absent)"; section 8: "shot" becomes "shot.png" for the default extension
    png. *)
Definition correctFilePath `{Collaborators World Image MarkSeed}
    (path expectedExtension : string) : string :=
  if hasImageExtension path then path
  else path ++ "." ++ expectedExtension.

(** ** Mutable state and the monad of the methods *)

Section State.
Context {World Image MarkSeed : Type}.

(** Everything an invocation can change: the pattern data and the screenshot
    list of the test entry, the warning log, the queue module, the outside
    world, and the log of collaborator calls (kept for the proofs). *)
Record state := {
  pathPattern_data : PathPatternData;
  testEntry_screenshots : list Screenshot;
  warningLog : list Warning;
  queue : AsyncQueue.t;
  world : World;
  calls : list (call Image MarkSeed)
}.

Definition set_pathPattern_data (d : PathPatternData) (s : state) : state :=
  {| pathPattern_data := d;
     testEntry_screenshots := testEntry_screenshots s;
     warningLog := warningLog s; queue := queue s;
     world := world s; calls := calls s |}.

Definition set_testEntry_screenshots (l : list Screenshot) (s : state) : state :=
  {| pathPattern_data := pathPattern_data s;
     testEntry_screenshots := l;
     warningLog := warningLog s; queue := queue s;
     world := world s; calls := calls s |}.

Definition set_warningLog (l : list Warning) (s : state) : state :=
  {| pathPattern_data := pathPattern_data s;
     testEntry_screenshots := testEntry_screenshots s;
     warningLog := l; queue := queue s;
     world := world s; calls := calls s |}.

Definition set_queue (q : AsyncQueue.t) (s : state) : state :=
  {| pathPattern_data := pathPattern_data s;
     testEntry_screenshots := testEntry_screenshots s;
     warningLog := warningLog s; queue := q;
     world := world s; calls := calls s |}.

Definition M (A : Type) : Type := state → outcome A * state.

Definition ret {A} (a : A) : M A := λ s, (Returned a, s).

Definition throw {A} (e : error) : M A := λ s, (Thrown e, s).

Definition bind {A B} (m : M A) (k : A → M B) : M B :=
  λ s, match m s with
       | (Returned a, s') => k a s'
       | (Thrown e, s') => (Thrown e, s')
       end.

(** [try { m } catch (e) { h e }] *)
Definition catch {A} (m : M A) (h : error → M A) : M A :=
  λ s, match m s with
       | (Returned a, s') => (Returned a, s')
       | (Thrown e, s') => h e s'
       end.

(** Runs [m] and hands its outcome over instead of throwing. *)
Definition attempt {A} (m : M A) : M (outcome A) :=
  λ s, let (r, s') := m s in (Returned r, s').

Definition settle {A} (r : outcome A) : M A :=
  match r with
  | Returned a => ret a
  | Thrown e => throw e
  end.

Definition gets {A} (f : state → A) : M A := λ s, (Returned (f s), s).

Definition modify (f : state → state) : M unit := λ s, (Returned tt, f s).

(** A collaborator call: the world moves on, and the call is logged with its
    result. *)
Definition invoke {A} (c : outcome A → call Image MarkSeed)
    (f : World → outcome A * World) : M A :=
  λ s, let (r, w) := f (world s) in
       (r, {| pathPattern_data := pathPattern_data s;
              testEntry_screenshots := testEntry_screenshots s;
              warningLog := warningLog s; queue := queue s;
              world := w; calls := calls s ++ [c r] |}).

(** The calls logged between two states. *)
Definition new_calls (s s' : state) : list (call Image MarkSeed) :=
  drop (length (calls s)) (calls s').
End State.
Arguments state : clear implicits.
Arguments M : clear implicits.

Declare Scope js_scope.
Delimit Scope js_scope with js.
Notation "'let*' x ':=' m 'in' k" := (bind m (λ x, k))
  (at level 10, x name, m at level 100, k at level 200) : js_scope.
Notation "m ';;' k" := (bind m (λ _, k))
  (at level 100, k at level 200, right associativity) : js_scope.

(** ** The class *)

Module Capturer.

(** *** Static methods *)

Definition _getDimensionWithoutScrollbar
    (fullDimension documentDimension bodyDimension : Q) : Q :=
  if JS.gt bodyDimension fullDimension then documentDimension
  else if JS.gt documentDimension fullDimension then bodyDimension
  else JS.Math_max documentDimension bodyDimension.

Definition _getCropDimensions
    (cropDimensions : option CropDimensions)
    (pageDimensions : option PageDimensions) : option ScaledCrop :=
  match cropDimensions, pageDimensions with
  | Some crop, Some page =>
      Some {| scaled_top := JS.Math_round (JS.mul (top crop) (dpr page));
              scaled_left := JS.Math_round (JS.mul (left crop) (dpr page));
              scaled_bottom := JS.Math_round (JS.mul (bottom crop) (dpr page));
              scaled_right := JS.Math_round (JS.mul (right crop) (dpr page)) |}
  | _, _ => None
  end.

Definition _getClientAreaDimensions
    (pageDimensions : option PageDimensions) : option ClientArea :=
  match pageDimensions with
  | None => None
  | Some page =>
      Some {| width :=
                JS.Math_floor
                  (JS.mul
                     (_getDimensionWithoutScrollbar
                        (innerWidth page) (documentWidth page) (bodyWidth page))
                     (dpr page));
              height :=
                JS.Math_floor
                  (JS.mul
                     (_getDimensionWithoutScrollbar
                        (innerHeight page) (documentHeight page)
                        (bodyHeight page))
                     (dpr page)) |}
  end.

(** *** Instance methods *)

Section Methods.
Context `{Collaborators World Image MarkSeed} (this : Capturer).
Local Open Scope js_scope.

Local Abbreviation M := (M World Image MarkSeed).

Definition _isScreenshotCaptured (screenshotPath : string) : M bool :=
  catch
    (let* stats := invoke (call_stat screenshotPath) (stat screenshotPath) in
     ret (isFile stats))
    (λ _, ret false).

(** [path.join] rejects an argument that is not a string. *)
Definition _joinWithBaseScreenshotPath (path : string) : M string :=
  match baseScreenshotsPath this with
  | Some base => ret (joinPath [base; path])
  | None => throw TypeError
  end.

Definition _incrementFileIndexes (forError : bool) : M unit :=
  modify (λ s,
    let d := pathPattern_data s in
    set_pathPattern_data
      (if forError then
         {| fileIndex := fileIndex d;
            errorFileIndex := errorFileIndex d + 1;
            parsedUserAgent_prettyUserAgent := parsedUserAgent_prettyUserAgent d;
            quarantineAttempt := quarantineAttempt d |}
       else
         {| fileIndex := fileIndex d + 1;
            errorFileIndex := errorFileIndex d;
            parsedUserAgent_prettyUserAgent := parsedUserAgent_prettyUserAgent d;
            quarantineAttempt := quarantineAttempt d |})
      s).

Definition _getCustomScreenshotPath (customPath : string) : M string :=
  let correctedCustomPath :=
    correctFilePath customPath DEFAULT_SCREENSHOT_EXTENSION in
  _joinWithBaseScreenshotPath correctedCustomPath.

Definition _getScreenshotPath (forError : bool) : M string :=
  let* path := gets (λ s, pathPattern_getPath (pathPattern_data s) forError) in
  _incrementFileIndexes forError ;;
  _joinWithBaseScreenshotPath path.

Definition _getThumbnailPath (screenshotPath : string) : string :=
  let imageName := basename screenshotPath in
  let imageDir := dirname screenshotPath in
  joinPath [imageDir; "thumbnails"; imageName].

(** The parameter [fullPage] defaults to [this.fullPage]. *)
Definition _takeScreenshot (filePath : string)
    (pageWidth pageHeight : option Z) (fullPage' : option bool) : M unit :=
  let fullPage := default (fullPage this) fullPage' in
  invoke
    (call_takeScreenshot (browserId this) filePath pageWidth pageHeight fullPage)
    (provider_takeScreenshot (browserId this) filePath pageWidth pageHeight
       fullPage).

(** Lines 130-138: the per-call thumbnail flag, the three paths, and the
    collision warning.  This part runs synchronously. *)
Definition resolve (forError : bool) (options : Options MarkSeed)
    : M (Job MarkSeed) :=
  let thumbnails :=
    match opt_thumbnails options with
    | None => thumbnails this
    | Some b => b
    end in
  let* screenshotPath :=
    (if JS.truthy_string (customPath options)
     then _getCustomScreenshotPath (default "" (customPath options))
     else _getScreenshotPath forError) in
  let thumbnailPath := _getThumbnailPath screenshotPath in
  let tempPath :=
    JS.replace screenshotPath (default "undefined" (baseScreenshotsPath this))
      (tempDirectoryPath this) in
  let* queued := gets (λ s, AsyncQueue.isInQueue screenshotPath (queue s)) in
  (if queued
   then modify (λ s,
          set_warningLog
            (warningLog s ++ [screenshotRewritingError screenshotPath]) s)
   else ret tt) ;;
  ret {| job_forError := forError; job_options := options;
         job_thumbnails := thumbnails;
         job_screenshotPath := screenshotPath;
         job_thumbnailPath := thumbnailPath;
         job_tempPath := tempPath |}.

(** Lines 141-178: the closure given to [addToQueue].  It returns the value
    the variable [screenshotData] holds when the closure ends. *)
Definition pipeline (job : Job MarkSeed) : M (option Buffer) :=
  let options := job_options job in
  let tempPath := job_tempPath job in
  let screenshotPath := job_screenshotPath job in
  let clientAreaDimensions :=
    _getClientAreaDimensions (pageDimensions options) in
  let pageWidth := width <$> clientAreaDimensions in
  let pageHeight := height <$> clientAreaDimensions in
  _takeScreenshot tempPath pageWidth pageHeight (opt_fullPage options) ;;
  let* captured := _isScreenshotCaptured tempPath in
  if negb captured then ret None
  else
    let* image := invoke (call_readPngFile tempPath) (readPngFile tempPath) in
    let cropOptions :=
      {| crop_markSeed := markSeed options;
         crop_clientAreaDimensions := clientAreaDimensions;
         crop_path := tempPath;
         crop_cropDimensions :=
           _getCropDimensions (cropDimensions options)
             (pageDimensions options) |} in
    let* croppedImage :=
      invoke (call_cropScreenshot image cropOptions)
        (cropScreenshot image cropOptions) in
    (match croppedImage with
     | Some cropped =>
         invoke (call_writePng tempPath cropped) (writePng tempPath cropped)
     | None => ret tt
     end) ;;
    let* screenshotData :=
      invoke (call_readFile tempPath) (readFile tempPath) in
    if job_forError job && autoTakeOnFails this
    then ret (Some screenshotData)
    else
      invoke (call_makeDir (dirname screenshotPath))
        (makeDir (dirname screenshotPath)) ;;
      invoke (call_writeFile screenshotPath screenshotData)
        (writeFile screenshotPath screenshotData) ;;
      (if job_thumbnails job
       then invoke
              (call_generateThumbnail screenshotPath (job_thumbnailPath job))
              (generateThumbnail screenshotPath (job_thumbnailPath job))
       else ret tt) ;;
      ret (Some screenshotData).

(** Lines 181-198: the record is built and pushed once the queued closure
    has resolved. *)
Definition finish (job : Job MarkSeed) (screenshotData : option Buffer)
    : M string :=
  let* testRunId :=
    (match testEntry_testRuns this !! browserId this with
     | Some run => ret (id run)
     | None => throw TypeError
     end) in
  let* data := gets pathPattern_data in
  let userAgent := escapeUserAgent (parsedUserAgent_prettyUserAgent data) in
  let screenshot :=
    {| testRunId := testRunId;
       screenshotPath := job_screenshotPath job;
       screenshotData := screenshotData;
       thumbnailPath := job_thumbnailPath job;
       userAgent := userAgent;
       screenshot_quarantineAttempt := quarantineAttempt data;
       takenOnFail := job_forError job |} in
  modify (λ s,
    set_testEntry_screenshots (testEntry_screenshots s ++ [screenshot]) s) ;;
  ret (job_screenshotPath job).

(** [addToQueue] hands the closure to the queue, and the key is released
    when the closure has ended. *)
Definition queue_enqueue (key : string) : M nat :=
  λ s, let (tk, q) := AsyncQueue.enqueue key (queue s) in
       (Returned tk, set_queue q s).

Definition queue_leave (key : string) (tk : nat) : M unit :=
  modify (λ s, set_queue (AsyncQueue.leave key tk (queue s)) s).

(** [await addToQueue(key, fn)] for a caller that is resumed without any
    other task running in between: the operation is queued, runs when its
    turn has come, and leaves the queue whether it resolved or rejected.  The
    interleaving of several invocations is the subject of [Scheduler] below. *)
Definition addToQueue {A} (key : string) (fn : M A) : M A :=
  let* tk := queue_enqueue key in
  let* r := attempt fn in
  queue_leave key tk ;;
  settle r.

Definition _capture (forError : bool) (options : Options MarkSeed)
    : M (option string) :=
  if negb (enabled this) then ret None
  else
    let* job := resolve forError options in
    let* screenshotData :=
      addToQueue (job_screenshotPath job) (pipeline job) in
    let* screenshotPath := finish job screenshotData in
    ret (Some screenshotPath).

Definition captureAction (options : Options MarkSeed) : M (option string) :=
  _capture false options.

Definition captureError (options : Options MarkSeed) : M (option string) :=
  _capture true options.

End Methods.

End Capturer.

(** ** Concurrent invocations *)

(** Several invocations of [_capture] in flight at once, as the event loop
    interleaves them.  An invocation runs synchronously up to its
    [await addToQueue] ([Invoke]); the queue starts the oldest operation of a
    key ([Start]); the operation in flight under a key ends, the key is
    released and the invocation resumes to push its record ([Finish]).  The
    effects of one pipeline on the world are taken at the moment it ends. *)
Module Scheduler.

Inductive Obs :=
| Queued (key : string) (tk : nat)
| Started (key : string) (tk : nat)
| Finished (key : string) (tk : nat).

Definition obs_key (o : Obs) : string :=
  match o with Queued key _ | Started key _ | Finished key _ => key end.

(** One key's view of a trace.  [busy] is the operation in flight and
    [pending] the operations queued and not started, oldest first.  An
    operation may start only when none is in flight and it is the oldest
    pending one; only the operation in flight may end. *)
Definition serial_step (key : string) (acc : option (option nat * list nat))
    (o : Obs) : option (option nat * list nat) :=
  match acc with
  | None => None
  | Some (busy, pending) =>
      if bool_decide (obs_key o = key) then
        match o with
        | Queued _ tk => Some (busy, (pending ++ [tk])%list)
        | Started _ tk =>
            match busy, pending with
            | None, oldest :: rest =>
                if bool_decide (tk = oldest) then Some (Some tk, rest) else None
            | _, _ => None
            end
        | Finished _ tk =>
            match busy with
            | Some tk' => if bool_decide (tk = tk') then Some (None, pending) else None
            | None => None
            end
        end
      else Some (busy, pending)
  end.

Definition serial_scan (key : string) (tr : list Obs)
    : option (option nat * list nat) :=
  foldl (serial_step key) (Some (None, [])) tr.

(** The operations of [key] ran strictly one at a time, in the order of
    their submission. *)
Definition serialized (key : string) (tr : list Obs) : Prop :=
  is_Some (serial_scan key tr).

Section Machine.
Context `{Collaborators World Image MarkSeed} (this : Capturer).
Local Open Scope js_scope.

Record Machine := {
  mstate : state World Image MarkSeed;
  jobs : gmap nat (Job MarkSeed);
  trace : list Obs
}.

Inductive Event :=
| Invoke (forError : bool) (options : Options MarkSeed)
| Start (key : string)
| Finish (key : string).

(** Lines 127-140 up to the point where [addToQueue] has queued the closure. *)
Definition submit (forError : bool) (options : Options MarkSeed)
    : M World Image MarkSeed (option (nat * Job MarkSeed)) :=
  if negb (enabled this) then ret None
  else
    let* job := Capturer.resolve this forError options in
    let* tk := Capturer.queue_enqueue (job_screenshotPath job) in
    ret (Some (tk, job)).

Definition step (e : Event) (m : Machine) : option Machine :=
  match e with
  | Invoke forError options =>
      match submit forError options (mstate m) with
      | (Returned (Some (tk, job)), s) =>
          Some {| mstate := s; jobs := <[tk:=job]> (jobs m);
                  trace := (trace m ++ [Queued (job_screenshotPath job) tk])%list |}
      | (_, s) =>
          Some {| mstate := s; jobs := jobs m; trace := trace m |}
      end
  | Start key =>
      match AsyncQueue.start key (queue (mstate m)) with
      | Some (tk, q) =>
          Some {| mstate := set_queue q (mstate m);
                  jobs := jobs m;
                  trace := trace m ++ [Started key tk] |}
      | None => None
      end
  | Finish key =>
      match AsyncQueue.inFlight key (queue (mstate m)) with
      | Some tk =>
          match jobs m !! tk with
          | Some job =>
              let (r, s1) := Capturer.pipeline this job (mstate m) in
              let s2 := set_queue (AsyncQueue.leave key tk (queue s1)) s1 in
              let s3 :=
                match r with
                | Returned data => (Capturer.finish this job data s2).2
                | Thrown _ => s2
                end in
              Some {| mstate := s3; jobs := jobs m;
                      trace := trace m ++ [Finished key tk] |}
          | None => None
          end
      | None => None
      end
  end.

(** A schedule is a list of events; it is executable when every event is
    enabled in turn. *)
Fixpoint run (evs : list Event) (m : Machine) : option Machine :=
  match evs with
  | [] => Some m
  | e :: evs' =>
      match step e m with
      | Some m' => run evs' m'
      | None => None
      end
  end.

(** The machine before any invocation. *)
Definition boot (s : state World Image MarkSeed) : Machine :=
  {| mstate := set_queue AsyncQueue.empty s; jobs := ∅; trace := [] |}.




(** What [n] submissions under a key, then [drain], leave in the trace, for
    the operations [tk], [tk+1], ... *)
Definition queued (key : string) (n : nat) (tk : nat) : list Obs :=
  Queued key <$> seq tk n.


(** How many invocations of a schedule are made for the given reason. *)
Definition invocations (forError : bool) (evs : list Event) : nat :=
  length (List.filter
            (λ e, match e with
                  | Invoke forError' _ => Bool.eqb forError' forError
                  | _ => false
                  end) evs).

(** No invocation of the schedule names an explicit path. *)
Definition no_explicit_path (evs : list Event) : Prop :=
  Forall (λ e, match e with
               | Invoke _ options => JS.truthy_string (customPath options) = false
               | _ => True
               end) evs.

(** What an invocation does from the moment the queue has started its
    operation: the closure of lines 141-178 runs, and when it resolves the
    record is pushed (lines 181-196). *)
Definition complete (job : Job MarkSeed) (s : state World Image MarkSeed)
    : state World Image MarkSeed :=
  let (r, s1) := Capturer.pipeline this job s in
  match r with
  | Returned data => (Capturer.finish this job data s1).2
  | Thrown _ => s1
  end.

(** The jobs run one whole pipeline after the other. *)
Definition run_jobs (js : list (Job MarkSeed)) (s : state World Image MarkSeed)
    : state World Image MarkSeed :=
  foldl (λ s job, complete job s) s js.


(** The resolutions of the invocations, one after the other: the state
    they leave and the jobs they yield. *)
Definition resolve_all (requests : list (bool * Options MarkSeed))
    (s : state World Image MarkSeed) : state World Image MarkSeed :=
  foldl (λ s request, (Capturer.resolve this request.1 request.2 s).2)
    s requests.

Fixpoint resolved (requests : list (bool * Options MarkSeed))
    (s : state World Image MarkSeed) : list (Job MarkSeed) :=
  match requests with
  | [] => []
  | request :: requests' =>
      let (o, s1) := Capturer.resolve this request.1 request.2 s in
      match o with
      | Returned job => job :: resolved requests' s1
      | Thrown _ => resolved requests' s1
      end
  end.

End Machine.
Arguments Machine : clear implicits.
Arguments Event : clear implicits.

End Scheduler.

(** ** A concrete world *)

(** An executable instance of the collaborators, on which the theorems are
    exercised: a disk that maps a path to a file or a directory, and a browser
    that takes the screenshot, produces nothing, or fails. *)
Module Demo.

Inductive Node :=
| File (content : Buffer)
| Directory.

Inductive Browser :=
| Working
| Silent
| Broken.

Record World := {
  disk : gmap string Node;
  browser : Browser
}.

Definition Image := Buffer.
Definition MarkSeed := Buffer.

Definition shot : Buffer := [x89; x50; x4e; x47; x0d; x0a].

Definition write (path : string) (n : Node) (w : World) : World :=
  {| disk := <[path:=n]> (disk w); browser := browser w |}.

Definition demo_takeScreenshot (browserId filePath : string)
    (pageWidth pageHeight : option Z) (fullPage : bool) (w : World)
    : outcome unit * World :=
  match browser w with
  | Working => (Returned tt, write filePath (File shot) w)
  | Silent => (Returned tt, w)
  | Broken => (Thrown (Rejected "the browser does not respond"), w)
  end.

Definition demo_stat (path : string) (w : World) : outcome Stats * World :=
  match disk w !! path with
  | Some (File _) => (Returned {| isFile := true |}, w)
  | Some Directory => (Returned {| isFile := false |}, w)
  | None => (Thrown (Rejected "ENOENT"), w)
  end.

Definition demo_readFile (path : string) (w : World) : outcome Buffer * World :=
  match disk w !! path with
  | Some (File content) => (Returned content, w)
  | Some Directory => (Thrown (Rejected "EISDIR"), w)
  | None => (Thrown (Rejected "ENOENT"), w)
  end.

(** The demo cropper keeps the first four bytes when a rectangle or a marker
    seed is given, and reports that nothing was cropped otherwise. *)
Definition demo_cropScreenshot (image : Image) (options : CropOptions MarkSeed)
    (w : World) : outcome (option Image) * World :=
  match crop_cropDimensions options, crop_markSeed options with
  | None, None => (Returned None, w)
  | _, _ => (Returned (Some (take 4 image)), w)
  end.

Definition demo_write (path : string) (content : Buffer) (w : World)
    : outcome unit * World :=
  match disk w !! path with
  | Some Directory => (Thrown (Rejected "EISDIR"), w)
  | _ => (Returned tt, write path (File content) w)
  end.

Definition demo_makeDir (path : string) (w : World) : outcome unit * World :=
  match disk w !! path with
  | Some (File _) => (Thrown (Rejected "EEXIST"), w)
  | _ => (Returned tt, write path Directory w)
  end.

Definition demo_generateThumbnail (source destination : string) (w : World)
    : outcome unit * World :=
  match disk w !! source with
  | Some (File content) => (Returned tt, write destination (File (take 2 content)) w)
  | _ => (Thrown (Rejected "no source image"), w)
  end.

(** The directory part and the file name of a path with separator [/]. *)
Fixpoint split_path (s : string) : option string * string :=
  match s with
  | EmptyString => (None, EmptyString)
  | String c s' =>
      match split_path s' with
      | (Some d, b) => (Some (String c d), b)
      | (None, b) =>
          if Ascii.eqb c "/" then (Some EmptyString, b) else (None, String c b)
      end
  end.

Definition demo_dirname (s : string) : string :=
  default "." (split_path s).1.

Definition demo_basename (s : string) : string := (split_path s).2.

Definition demo_joinPath (parts : list string) : string :=
  String.concat "/" parts.

Definition demo_hasImageExtension (s : string) : bool :=
  let n := String.length s in
  String.eqb (String.substring (n - 4) 4 s) ".png".

(** The pattern [${FILE_INDEX}.png], under [errors/] for an error capture. *)
Definition demo_getPath (data : PathPatternData) (forError : bool) : string :=
  if forError then "errors/" ++ pretty (errorFileIndex data) ++ ".png"
  else pretty (fileIndex data) ++ ".png".

#[global] Instance demo_collaborators : Collaborators World Image MarkSeed := {|
  provider_takeScreenshot := demo_takeScreenshot;
  stat := demo_stat;
  readPngFile := demo_readFile;
  cropScreenshot := demo_cropScreenshot;
  writePng := demo_write;
  readFile := demo_readFile;
  makeDir := demo_makeDir;
  writeFile := demo_write;
  generateThumbnail := demo_generateThumbnail;
  joinPath := demo_joinPath;
  dirname := demo_dirname;
  basename := demo_basename;
  pathPattern_getPath := demo_getPath;
  escapeUserAgent := λ ua, ua;
  hasImageExtension := demo_hasImageExtension;
  DEFAULT_SCREENSHOT_EXTENSION := "png"
|}.

Definition capturer (autoTakeOnFails : bool) : Capturer :=
  {| baseScreenshotsPath := Some "/shots";
     testEntry_testRuns := {[ "chrome" := {| id := "run-1" |} ]};
     browserId := "chrome";
     fullPage := false;
     thumbnails := true;
     tempDirectoryPath := "/tmp";
     autoTakeOnFails := autoTakeOnFails |}.

(** A capturer constructed without a base directory. *)
Definition disabled_capturer : Capturer :=
  {| baseScreenshotsPath := None;
     testEntry_testRuns := {[ "chrome" := {| id := "run-1" |} ]};
     browserId := "chrome";
     fullPage := false;
     thumbnails := true;
     tempDirectoryPath := "/tmp";
     autoTakeOnFails := false |}.

Definition initial (b : Browser) : state World Image MarkSeed :=
  {| pathPattern_data :=
       {| fileIndex := 1; errorFileIndex := 1;
          parsedUserAgent_prettyUserAgent := "Chrome";
          quarantineAttempt := None |};
     testEntry_screenshots := [];
     warningLog := [];
     queue := AsyncQueue.empty;
     world := {| disk := ∅; browser := b |};
     calls := [] |}.

Definition with_customPath (path : string) : Options MarkSeed :=
  {| pageDimensions := None; cropDimensions := None; markSeed := None;
     customPath := Some path; opt_fullPage := None; opt_thumbnails := None |}.

Definition page : PageDimensions :=
  {| innerWidth := 1024; documentWidth := 1009; bodyWidth := 1009;
     innerHeight := 768; documentHeight := 768; bodyHeight := 2000;
     dpr := 3 # 2 |}.

Definition rectangle : CropDimensions :=
  {| top := 1; left := JS.number (4 # 5); bottom := 5 # 2; right := 21 # 2 |}.

Definition with_crop (crop : option CropDimensions)
    (page : option PageDimensions) : Options MarkSeed :=
  {| pageDimensions := page; cropDimensions := crop; markSeed := None;
     customPath := None; opt_fullPage := None; opt_thumbnails := None |}.


(** Two action captures and one error capture with generated paths, their
    pipelines interleaved. *)
Definition interleaved : list (Scheduler.Event MarkSeed) :=
  [Scheduler.Invoke false no_options;
   Scheduler.Invoke true no_options;
   Scheduler.Start "/shots/1.png";
   Scheduler.Invoke false no_options;
   Scheduler.Finish "/shots/1.png";
   Scheduler.Start "/shots/errors/1.png";
   Scheduler.Start "/shots/2.png";
   Scheduler.Finish "/shots/2.png"].

(** Where [interleaved] leaves the machine. *)
Definition interleaved_end : Scheduler.Machine World Image MarkSeed :=
  default (Scheduler.boot (initial Working))
    (Scheduler.run (capturer false) interleaved
       (Scheduler.boot (initial Working))).

(** The job of the first action capture with a generated path, and the state
    once it is resolved. *)
Definition first_job : Job MarkSeed :=
  {| job_forError := false; job_options := no_options;
     job_thumbnails := true;
     job_screenshotPath := "/shots/1.png";
     job_thumbnailPath := "/shots/thumbnails/1.png";
     job_tempPath := "/tmp/1.png" |}.

Definition resolved (b : Browser) : state World Image MarkSeed :=
  {| pathPattern_data :=
       {| fileIndex := 2; errorFileIndex := 1;
          parsedUserAgent_prettyUserAgent := "Chrome";
          quarantineAttempt := None |};
     testEntry_screenshots := [];
     warningLog := [];
     queue := AsyncQueue.empty;
     world := {| disk := ∅; browser := b |};
     calls := [] |}.

(** An action capture with a working browser, with a browser that does not
    respond, and with one that produces no file. *)
Definition plain_run : outcome (option string) * state World Image MarkSeed :=
  Capturer._capture (capturer false) false no_options (initial Working).

Definition broken_run : outcome (option string) * state World Image MarkSeed :=
  Capturer._capture (capturer false) false no_options (initial Broken).

Definition silent_run : outcome (option string) * state World Image MarkSeed :=
  Capturer._capture (capturer false) false no_options (initial Silent).

(** An error capture that is kept in memory only; a capture with a crop
    rectangle, with and without the page geometry. *)
Definition unpublished_run : outcome (option string) * state World Image MarkSeed :=
  Capturer.captureError (capturer true) no_options (initial Working).

Definition cropped_run : outcome (option string) * state World Image MarkSeed :=
  Capturer._capture (capturer false) false
    (with_crop (Some rectangle) (Some page)) (initial Working).

Definition blind_crop_run : outcome (option string) * state World Image MarkSeed :=
  Capturer._capture (capturer false) false
    (with_crop (Some rectangle) None) (initial Working).

Definition named_run : outcome (option string) * state World Image MarkSeed :=
  Capturer._capture (capturer false) false (with_customPath "shot")
    (initial Working).

End Demo.

(** ** Notions used to state the properties *)

(** The path holds a regular file, as [stat] reports it: what
    [_isScreenshotCaptured] finds out. *)
Definition staged `{Collaborators World Image MarkSeed}
    (path : string) (w : World) : bool :=
  match (stat path w).1 with
  | Returned stats => isFile stats
  | Thrown _ => false
  end.

(** The dimension rule in the words of the specification:
    [bodyDim > fullDim ? documentDim
     : (documentDim > fullDim ? bodyDim : max(documentDim, bodyDim))],
    over the order of the rationals. *)
Definition spec_dimension (fullDim documentDim bodyDim : Q) : Q :=
  if Qlt_le_dec fullDim bodyDim then documentDim
  else if Qlt_le_dec fullDim documentDim then bodyDim
  else Qmax documentDim bodyDim.

(** [n] is [x] rounded to the nearest integer, a tie going up. *)
Definition rounds_to (x : Q) (n : Z) : Prop :=
  (inject_Z n - (1 # 2) <= x)%Q ∧ (x < inject_Z n + (1 # 2))%Q.

(** [n] is the largest integer that does not exceed [x]. *)
Definition floors_to (x : Q) (n : Z) : Prop :=
  (inject_Z n <= x)%Q ∧ (x < inject_Z n + 1)%Q.

(** [n] is [floor(r * d)]: the floor of the product as the machine forms
    it, a value of the format that no other is nearer to the exact product;
    it is the floor of the exact product whenever that is itself a value of
    the format. *)
Definition floor_of_product (r d : Q) (n : Z) : Prop :=
  Binary64.nearest (r * d) (JS.mul r d) ∧
  floors_to (JS.mul r d) n ∧
  (Binary64.in_format (r * d) → floors_to (r * d) n).

(** [n] is [round(edge * r)], likewise. *)
Definition round_of_product (edge r : Q) (n : Z) : Prop :=
  Binary64.nearest (edge * r) (JS.mul edge r) ∧
  rounds_to (JS.mul edge r) n ∧
  (Binary64.in_format (edge * r) → rounds_to (edge * r) n).

(** The path a call asks a collaborator to write to, if any. *)
Definition write_target {Image MarkSeed} (c : call Image MarkSeed)
    : option string :=
  match c with
  | call_takeScreenshot _ filePath _ _ _ _ => Some filePath
  | call_writePng path _ _ => Some path
  | call_makeDir path _ => Some path
  | call_writeFile path _ _ => Some path
  | call_generateThumbnail _ destination _ => Some destination
  | _ => None
  end.

(** ** Invariant of the scheduler *)

(** What the lane of a key and the trace have to do with each other: the
    operations of the lane are in ticket order and were all handed out, and
    the trace of the key is serial, with the running head of the lane in
    flight and the rest of the lane pending. *)
Definition lane_ok (key : string) (q : AsyncQueue.t)
    (tr : list Scheduler.Obs) : Prop :=
  ∃ busy pending,
    Scheduler.serial_scan key tr = Some (busy, pending) ∧
    match AsyncQueue.lanes q !! key with
    | None => busy = None ∧ pending = []
    | Some l =>
        StronglySorted lt (AsyncQueue.ops l) ∧
        Forall (λ tk, tk < AsyncQueue.next q)%nat (AsyncQueue.ops l) ∧
        if AsyncQueue.running l
        then ∃ tk, AsyncQueue.ops l = tk :: pending ∧ busy = Some tk
        else busy = None ∧ AsyncQueue.ops l = pending ∧ pending ≠ []
    end.

(** ** Further notions *)

Definition is_stat {Image MarkSeed} (c : call Image MarkSeed) : bool :=
  match c with call_stat _ _ => true | _ => false end.

(** What a call rejected with, if it did. *)
Definition call_rejection {Image MarkSeed} (c : call Image MarkSeed)
    : option error :=
  match c with
  | call_takeScreenshot _ _ _ _ _ (Thrown e)
  | call_stat _ (Thrown e)
  | call_readPngFile _ (Thrown e)
  | call_cropScreenshot _ _ (Thrown e)
  | call_writePng _ _ (Thrown e)
  | call_readFile _ (Thrown e)
  | call_makeDir _ (Thrown e)
  | call_writeFile _ _ (Thrown e)
  | call_generateThumbnail _ _ (Thrown e) => Some e
  | _ => None
  end.

(** The paths a job may hand to its collaborators: the staging path for the
    raw capture, the check, the reads and the crop; the destination, its
    directory and its thumbnail for the publication. *)
Definition call_in_footprint `{Collaborators World Image MarkSeed}
    (job : Job MarkSeed) (c : call Image MarkSeed) : Prop :=
  match c with
  | call_takeScreenshot _ path _ _ _ _
  | call_stat path _
  | call_readPngFile path _
  | call_writePng path _ _
  | call_readFile path _ => path = job_tempPath job
  | call_cropScreenshot _ options _ => crop_path options = job_tempPath job
  | call_makeDir path _ => path = dirname (job_screenshotPath job)
  | call_writeFile path _ _ => path = job_screenshotPath job
  | call_generateThumbnail source destination _ =>
      source = job_screenshotPath job ∧ destination = job_thumbnailPath job
  end.

(** The request with its [customPath] replaced. *)
Definition set_customPath {MarkSeed} (path : option string)
    (options : Options MarkSeed) : Options MarkSeed :=
  {| pageDimensions := pageDimensions options;
     cropDimensions := cropDimensions options;
     markSeed := markSeed options;
     customPath := path;
     opt_fullPage := opt_fullPage options;
     opt_thumbnails := opt_thumbnails options |}.

(** The capturer constructed with another [autoTakeOnFails]. *)
Definition set_autoTakeOnFails (flag : bool) (this : Capturer) : Capturer :=
  {| baseScreenshotsPath := baseScreenshotsPath this;
     testEntry_testRuns := testEntry_testRuns this;
     browserId := browserId this;
     fullPage := fullPage this;
     thumbnails := thumbnails this;
     tempDirectoryPath := tempDirectoryPath this;
     autoTakeOnFails := flag |}.

(** The text has no [$]: as a replacement text it stands for itself. *)
Fixpoint no_dollar (s : string) : bool :=
  match s with
  | EmptyString => true
  | String a tl => negb (Ascii.eqb a "$") && no_dollar tl
  end.

(** [pathPattern.data] after [fileIndex++] or [errorFileIndex++]. *)
Definition incremented (forError : bool) (d : PathPatternData)
    : PathPatternData :=
  if forError then
    {| fileIndex := fileIndex d;
       errorFileIndex := errorFileIndex d + 1;
       parsedUserAgent_prettyUserAgent := parsedUserAgent_prettyUserAgent d;
       quarantineAttempt := quarantineAttempt d |}
  else
    {| fileIndex := fileIndex d + 1;
       errorFileIndex := errorFileIndex d;
       parsedUserAgent_prettyUserAgent := parsedUserAgent_prettyUserAgent d;
       quarantineAttempt := quarantineAttempt d |}.

(** The place of a collaborator call in the source of [_capture]. *)
Definition stage {Image MarkSeed} (c : call Image MarkSeed) : nat :=
  match c with
  | call_takeScreenshot _ _ _ _ _ _ => 1
  | call_stat _ _ => 2
  | call_readPngFile _ _ => 3
  | call_cropScreenshot _ _ _ => 4
  | call_writePng _ _ _ => 5
  | call_readFile _ _ => 6
  | call_makeDir _ _ => 7
  | call_writeFile _ _ _ => 8
  | call_generateThumbnail _ _ _ => 9
  end.




(** ** More concrete cases *)

Module Cases.

(** A capturer whose test entry has no run for its browser. *)
Definition orphan_capturer : Capturer :=
  {| baseScreenshotsPath := Some "/shots";
     testEntry_testRuns := ∅;
     browserId := "chrome";
     fullPage := false;
     thumbnails := true;
     tempDirectoryPath := "/tmp";
     autoTakeOnFails := false |}.

(** A capturer constructed with a relative base directory. *)
Definition relative_capturer : Capturer :=
  {| baseScreenshotsPath := Some "./shots";
     testEntry_testRuns := {[ "chrome" := {| id := "run-1" |} ]};
     browserId := "chrome";
     fullPage := false;
     thumbnails := true;
     tempDirectoryPath := "/tmp";
     autoTakeOnFails := true |}.

(** [path.join] drops a leading [./], as Node does when it normalises. *)
Definition normalizing_joinPath (parts : list string) : string :=
  let joined := Demo.demo_joinPath parts in
  if String.prefix "./" joined
  then String.substring 2 (String.length joined - 2) joined
  else joined.

Definition normalizing_collaborators
    : Collaborators Demo.World Demo.Image Demo.MarkSeed :=
  {| provider_takeScreenshot := Demo.demo_takeScreenshot;
     stat := Demo.demo_stat;
     readPngFile := Demo.demo_readFile;
     cropScreenshot := Demo.demo_cropScreenshot;
     writePng := Demo.demo_write;
     readFile := Demo.demo_readFile;
     makeDir := Demo.demo_makeDir;
     writeFile := Demo.demo_write;
     generateThumbnail := Demo.demo_generateThumbnail;
     joinPath := normalizing_joinPath;
     dirname := Demo.demo_dirname;
     basename := Demo.demo_basename;
     pathPattern_getPath := Demo.demo_getPath;
     escapeUserAgent := λ ua, ua;
     hasImageExtension := Demo.demo_hasImageExtension;
     DEFAULT_SCREENSHOT_EXTENSION := "png" |}.

(** The job of the capture of [relative_capturer], and the state once it is
    resolved. *)
Definition relative_job : Job Demo.MarkSeed :=
  {| job_forError := true; job_options := no_options;
     job_thumbnails := true;
     job_screenshotPath := "shots/errors/1.png";
     job_thumbnailPath := "shots/errors/thumbnails/1.png";
     job_tempPath := "shots/errors/1.png" |}.

Definition relative_resolved : state Demo.World Demo.Image Demo.MarkSeed :=
  {| pathPattern_data :=
       {| fileIndex := 1; errorFileIndex := 2;
          parsedUserAgent_prettyUserAgent := "Chrome";
          quarantineAttempt := None |};
     testEntry_screenshots := [];
     warningLog := [];
     queue := AsyncQueue.empty;
     world := {| Demo.disk := ∅; Demo.browser := Demo.Working |};
     calls := [] |}.

(** A request that opts out of the thumbnail, and one with an empty explicit
    path. *)
Definition without_thumbnail : Options Demo.MarkSeed :=
  {| pageDimensions := None; cropDimensions := None; markSeed := None;
     customPath := None; opt_fullPage := Some true;
     opt_thumbnails := Some false |}.

(** A page whose device pixel ratio is the Number 1.2: the exact products
    of its dimensions and the ratio are not values of the format. *)
Definition scaled_page : PageDimensions :=
  {| innerWidth := 1000; documentWidth := 1000; bodyWidth := 1000;
     innerHeight := 700; documentHeight := 700; bodyHeight := 700;
     dpr := JS.number (6 # 5) |}.

(** A rectangle with the edges 1.2, 2, 4.4 and 10, on a page whose device
    pixel ratio is 1.25. *)
Definition fine_rectangle : CropDimensions :=
  {| top := JS.number (6 # 5); left := 2;
     bottom := JS.number (22 # 5); right := 10 |}.

Definition fine_page : PageDimensions :=
  {| innerWidth := 1024; documentWidth := 1009; bodyWidth := 1009;
     innerHeight := 768; documentHeight := 768; bodyHeight := 2000;
     dpr := 5 # 4 |}.

Definition fine_run
    : outcome (option string) * state Demo.World Demo.Image Demo.MarkSeed :=
  Capturer._capture (Demo.capturer false) false
    (Demo.with_crop (Some fine_rectangle) (Some fine_page))
    (Demo.initial Demo.Working).

(** The state that a capture named [shot] leaves, its staged file
    included, with a browser that from then on produces no file; and the
    same capture made again in that state. *)
Definition stale : state Demo.World Demo.Image Demo.MarkSeed :=
  {| pathPattern_data := pathPattern_data Demo.named_run.2;
     testEntry_screenshots := testEntry_screenshots Demo.named_run.2;
     warningLog := warningLog Demo.named_run.2;
     queue := queue Demo.named_run.2;
     world := {| Demo.disk := Demo.disk (world Demo.named_run.2);
                 Demo.browser := Demo.Silent |};
     calls := calls Demo.named_run.2 |}.

Definition stale_run
    : outcome (option string) * state Demo.World Demo.Image Demo.MarkSeed :=
  Capturer._capture (Demo.capturer false) false (Demo.with_customPath "shot")
    stale.


Definition orphan_run
    : outcome (option string) * state Demo.World Demo.Image Demo.MarkSeed :=
  Capturer._capture orphan_capturer false no_options
    (Demo.initial Demo.Working).

Definition without_thumbnail_run
    : outcome (option string) * state Demo.World Demo.Image Demo.MarkSeed :=
  Capturer._capture (Demo.capturer false) false without_thumbnail
    (Demo.initial Demo.Working).

End Cases.

(** ** Proof automation *)

(** Symbolic execution: case analysis on the innermost scrutinee, until no
    [match] is left in the goal. *)
Ltac exec :=
  repeat (simpl in *; simplify_eq;
    match goal with
    | |- context [match ?x with _ => _ end] =>
        lazymatch x with
        | context [match _ with _ => _ end] => fail
        | _ => let E := fresh "E" in destruct x eqn:E; rewrite ?E in *
        end
    end);
  simpl in *; simplify_eq.

Ltac unfold_monad :=
  unfold bind, catch, attempt, settle, invoke, ret, throw, gets, modify,
    set_queue, set_warningLog, set_testEntry_screenshots, set_pathPattern_data
    in *.

Ltac unfold_pipeline :=
  unfold Capturer.pipeline, Capturer._takeScreenshot,
    Capturer._isScreenshotCaptured, new_calls, staged;
  unfold_monad.

(** Case analysis on the membership of a call in a log that is known. *)
Ltac in_log H :=
  repeat (apply elem_of_cons in H as [H|H]; [by simplify_eq/=|]);
  by apply elem_of_nil in H.

Ltac tidy_log :=
  rewrite <- ?app_assoc, ?drop_app_length in *; simpl in *.

Ltac unfold_resolve :=
  unfold Capturer.resolve, Capturer._getCustomScreenshotPath,
    Capturer._getScreenshotPath, Capturer._joinWithBaseScreenshotPath,
    Capturer._incrementFileIndexes, enabled in *;
  unfold_monad.

Local Open Scope list_scope.

(** * Properties *)

(** ** Building blocks *)

Section Sequential.
Context `{Collaborators World Image MarkSeed} (this : Capturer).
Implicit Types (s : state World Image MarkSeed) (job : Job MarkSeed)
  (options : Options MarkSeed).

(** The closure given to the queue neither reads nor writes the queue. *)
Lemma pipeline_set_queue job q s :
  Capturer.pipeline this job (set_queue q s) =
  ((Capturer.pipeline this job s).1,
   set_queue q (Capturer.pipeline this job s).2).
Proof.
  unfold Capturer.pipeline, Capturer._takeScreenshot,
    Capturer._isScreenshotCaptured.
  unfold_monad. exec; reflexivity.
Qed.

(** It only acts on the world, and logs what it calls. *)
Lemma pipeline_frame job s :
  let s' := (Capturer.pipeline this job s).2 in
  pathPattern_data s' = pathPattern_data s ∧
  testEntry_screenshots s' = testEntry_screenshots s ∧
  warningLog s' = warningLog s ∧
  queue s' = queue s ∧
  calls s' = calls s ++ new_calls s s'.
Proof.
  unfold Capturer.pipeline, Capturer._takeScreenshot,
    Capturer._isScreenshotCaptured, new_calls.
  unfold_monad. exec.
  all: rewrite <- ?app_assoc, ?drop_app_length; done.
Qed.

(** Resolution touches the counters and the warning log only. *)
Lemma resolve_frame forError options s :
  let s1 := (Capturer.resolve this forError options s).2 in
  world s1 = world s ∧ calls s1 = calls s ∧ queue s1 = queue s ∧
  testEntry_screenshots s1 = testEntry_screenshots s.
Proof.
  unfold Capturer.resolve, Capturer._getCustomScreenshotPath,
    Capturer._getScreenshotPath, Capturer._joinWithBaseScreenshotPath,
    Capturer._incrementFileIndexes.
  unfold_monad. exec; done.
Qed.

(** An enabled capturer always resolves a destination. *)
Lemma resolve_returns forError options s :
  enabled this = true →
  ∃ job, (Capturer.resolve this forError options s).1 = Returned job.
Proof.
  unfold enabled, Capturer.resolve, Capturer._getCustomScreenshotPath,
    Capturer._getScreenshotPath, Capturer._joinWithBaseScreenshotPath,
    Capturer._incrementFileIndexes.
  unfold_monad. intros Hen. exec; eauto.
Qed.

Lemma resolve_job forError options s job s1 :
  Capturer.resolve this forError options s = (Returned job, s1) →
  job_forError job = forError ∧ job_options job = options ∧
  job_thumbnails job = default (thumbnails this) (opt_thumbnails options) ∧
  job_thumbnailPath job = Capturer._getThumbnailPath (job_screenshotPath job) ∧
  job_tempPath job =
    JS.replace (job_screenshotPath job)
      (default "undefined" (baseScreenshotsPath this)) (tempDirectoryPath this).
Proof.
  unfold Capturer.resolve, Capturer._getCustomScreenshotPath,
    Capturer._getScreenshotPath, Capturer._joinWithBaseScreenshotPath,
    Capturer._incrementFileIndexes.
  unfold_monad. revert s1 job. exec; intros; simplify_eq/=; try done.
  all: destruct (opt_thumbnails options); done.
Qed.

(** The user agent and the quarantine attempt are not touched by the
    resolution. *)
Lemma resolve_keeps_identity forError options s job s1 :
  Capturer.resolve this forError options s = (Returned job, s1) →
  parsedUserAgent_prettyUserAgent (pathPattern_data s1)
    = parsedUserAgent_prettyUserAgent (pathPattern_data s) ∧
  quarantineAttempt (pathPattern_data s1) = quarantineAttempt (pathPattern_data s).
Proof. unfold_resolve. exec; intros; simplify_eq/=; done. Qed.

(** What an invocation of an enabled capturer amounts to, in terms of its
    resolution and of its pipeline. *)
Lemma capture_decompose forError options s job s1 :
  enabled this = true →
  Capturer.resolve this forError options s = (Returned job, s1) →
  let pr := (Capturer.pipeline this job s1).1 in
  let s2 := (Capturer.pipeline this job s1).2 in
  let run := testEntry_testRuns this !! browserId this in
  let (r, s') := Capturer._capture this forError options s in
  r = match pr, run with
      | Returned _, Some _ => Returned (Some (job_screenshotPath job))
      | Returned _, None => Thrown TypeError
      | Thrown e, _ => Thrown e
      end ∧
  testEntry_screenshots s' =
    testEntry_screenshots s ++
    match pr, run with
    | Returned data, Some run =>
        [{| testRunId := id run;
            screenshotPath := job_screenshotPath job;
            screenshotData := data;
            thumbnailPath := job_thumbnailPath job;
            userAgent :=
              escapeUserAgent
                (parsedUserAgent_prettyUserAgent (pathPattern_data s1));
            screenshot_quarantineAttempt :=
              quarantineAttempt (pathPattern_data s1);
            takenOnFail := job_forError job |}]
    | _, _ => []
    end ∧
  pathPattern_data s' = pathPattern_data s1 ∧
  warningLog s' = warningLog s1 ∧
  world s' = world s2 ∧
  new_calls s s' = new_calls s1 s2.
Proof.
  intros Hen Hres pr s2 run. subst pr s2 run.
  pose proof (resolve_frame forError options s) as Hfr.
  rewrite Hres in Hfr. simpl in Hfr. destruct Hfr as (_ & Hcalls & _ & Hshots).
  pose proof (pipeline_frame job s1) as (Hd & Hs & Hw & _ & _).
  unfold Capturer._capture, Capturer.addToQueue, Capturer.queue_enqueue,
    Capturer.queue_leave, Capturer.finish.
  rewrite Hen. simpl. unfold bind at 1. rewrite Hres.
  unfold bind at 1. unfold bind at 1.
  destruct (AsyncQueue.enqueue (job_screenshotPath job) (queue s1)) as [tk q].
  unfold bind at 1, attempt. rewrite pipeline_set_queue.
  destruct (Capturer.pipeline this job s1) as [pr s2]. simpl in *.
  unfold new_calls. rewrite Hcalls.
  unfold_monad. 
  destruct pr; simpl; destruct (testEntry_testRuns this !! browserId this); simpl.
  all: rewrite ?app_nil_r, ?Hd, ?Hs, ?Hw, ?Hshots; done.
Qed.


(** *** The pipeline, call by call *)

(** The options handed to the cropper by the pipeline of [job]. *)
Lemma pipeline_crop_options job s image cropOptions result :
  call_cropScreenshot image cropOptions result
    ∈ new_calls s (Capturer.pipeline this job s).2 →
  cropOptions =
    {| crop_markSeed := markSeed (job_options job);
       crop_clientAreaDimensions :=
         Capturer._getClientAreaDimensions (pageDimensions (job_options job));
       crop_path := job_tempPath job;
       crop_cropDimensions :=
         Capturer._getCropDimensions (cropDimensions (job_options job))
           (pageDimensions (job_options job)) |}.
Proof.
  unfold_pipeline. exec; tidy_log; intros Hin.
  all: in_log Hin.
Qed.




Lemma pipeline_readback job s path data :
  call_readFile path (Returned data)
    ∈ new_calls s (Capturer.pipeline this job s).2 →
  path = job_tempPath job ∧
  match (Capturer.pipeline this job s).1 with
  | Returned payload => payload = Some data
  | Thrown _ => job_forError job && autoTakeOnFails this = false
  end.
Proof.
  unfold_pipeline. exec; tidy_log; intros Hin.
  all: in_log Hin.
Qed.

(** No staged file: the pipeline ends after the check. *)
Lemma pipeline_not_staged job s w :
  provider_takeScreenshot (browserId this) (job_tempPath job)
    (width <$> Capturer._getClientAreaDimensions (pageDimensions (job_options job)))
    (height <$> Capturer._getClientAreaDimensions (pageDimensions (job_options job)))
    (default (fullPage this) (opt_fullPage (job_options job))) (world s)
  = (Returned tt, w) →
  staged (job_tempPath job) w = false →
  (Capturer.pipeline this job s).1 = Returned None ∧
  new_calls s (Capturer.pipeline this job s).2 =
    [call_takeScreenshot (browserId this) (job_tempPath job)
       (width <$> Capturer._getClientAreaDimensions (pageDimensions (job_options job)))
       (height <$> Capturer._getClientAreaDimensions (pageDimensions (job_options job)))
       (default (fullPage this) (opt_fullPage (job_options job))) (Returned tt);
     call_stat (job_tempPath job) (stat (job_tempPath job) w).1].
Proof.
  intros Htaken. unfold_pipeline. rewrite Htaken. simpl.
  destruct (stat (job_tempPath job) w) as [[stats|e] w'] eqn:Hstat; simpl.
  - intros ->. simpl. tidy_log. done.
  - intros _. tidy_log. done.
Qed.

(** From the check of the staged file to the read-back. *)
Lemma pipeline_crop_stage job s i path stats :
  let log := new_calls s (Capturer.pipeline this job s).2 in
  log !! i = Some (call_stat path (Returned stats)) →
  isFile stats = true →
  ∃ decoded,
    log !! S i = Some (call_readPngFile path decoded) ∧
    match decoded with
    | Thrown _ => log !! S (S i) = None
    | Returned image =>
        ∃ cropOptions result,
          log !! S (S i) = Some (call_cropScreenshot image cropOptions result) ∧
          crop_path cropOptions = path ∧
          match result with
          | Thrown _ => log !! S (S (S i)) = None
          | Returned None =>
              ∃ read, log !! S (S (S i)) = Some (call_readFile path read)
          | Returned (Some cropped) =>
              ∃ written,
                log !! S (S (S i)) = Some (call_writePng path cropped written) ∧
                match written with
                | Thrown _ => log !! S (S (S (S i))) = None
                | Returned _ =>
                    ∃ read,
                      log !! S (S (S (S i))) = Some (call_readFile path read)
                end
          end
    end.
Proof.
  unfold_pipeline. exec; tidy_log; intros Hi Hfile.
  all: do 12 (try (destruct i as [|i]; simplify_eq/=)).
  all: try by (rewrite Hfile in *).
  all: repeat (simpl;
         match goal with
         | |- ∃ _, _ => eexists
         | |- _ ∧ _ => split; [done|]
         | |- _ => done
         end).
Qed.

(** *** Resolution *)

(** With an explicit path: the counters stay, the path is the corrected
    explicit path under the base directory. *)
Lemma resolve_explicit forError options s job s1 base path :
  baseScreenshotsPath this = Some base →
  customPath options = Some path →
  path ≠ "" →
  Capturer.resolve this forError options s = (Returned job, s1) →
  pathPattern_data s1 = pathPattern_data s ∧
  job_screenshotPath job =
    joinPath [base; correctFilePath path DEFAULT_SCREENSHOT_EXTENSION].
Proof.
  intros Hbase Hpath Hne. unfold_resolve. rewrite Hbase, Hpath. simpl.
  apply String.eqb_neq in Hne. rewrite Hne. simpl.
  exec; intros; simplify_eq/=; done.
Qed.

(** Without one: the pattern is rendered from the current data, and the
    counter of the reason is incremented. *)
Lemma resolve_generated forError options s job s1 :
  JS.truthy_string (customPath options) = false →
  Capturer.resolve this forError options s = (Returned job, s1) →
  fileIndex (pathPattern_data s1) =
    fileIndex (pathPattern_data s) + (if forError then 0 else 1) ∧
  errorFileIndex (pathPattern_data s1) =
    errorFileIndex (pathPattern_data s) + (if forError then 1 else 0) ∧
  parsedUserAgent_prettyUserAgent (pathPattern_data s1) =
    parsedUserAgent_prettyUserAgent (pathPattern_data s) ∧
  quarantineAttempt (pathPattern_data s1) = quarantineAttempt (pathPattern_data s) ∧
  ∃ base,
    baseScreenshotsPath this = Some base ∧
    job_screenshotPath job =
      joinPath [base; pathPattern_getPath (pathPattern_data s) forError].
Proof.
  intros Hnone. unfold_resolve. rewrite Hnone.
  exec; intros; simplify_eq/=; repeat split; eauto; lia.
Qed.


(** *** One invocation *)

Lemma new_calls_same s : new_calls s s = [].
Proof. unfold new_calls. apply drop_all. Qed.

(** An invocation either returns at once, or resolves a job, runs its
    pipeline and pushes a record. *)
Lemma capture_cases forError options s :
  (enabled this = false ∧
   Capturer._capture this forError options s = (Returned None, s)) ∨
  (enabled this = true ∧
   ∃ job s1,
     Capturer.resolve this forError options s = (Returned job, s1) ∧
     let pr := (Capturer.pipeline this job s1).1 in
     let s2 := (Capturer.pipeline this job s1).2 in
     let run := testEntry_testRuns this !! browserId this in
     let (r, s') := Capturer._capture this forError options s in
     r = match pr, run with
         | Returned _, Some _ => Returned (Some (job_screenshotPath job))
         | Returned _, None => Thrown TypeError
         | Thrown e, _ => Thrown e
         end ∧
     testEntry_screenshots s' =
       testEntry_screenshots s ++
       match pr, run with
       | Returned data, Some run =>
           [{| testRunId := id run;
               screenshotPath := job_screenshotPath job;
               screenshotData := data;
               thumbnailPath := job_thumbnailPath job;
               userAgent :=
                 escapeUserAgent
                   (parsedUserAgent_prettyUserAgent (pathPattern_data s1));
               screenshot_quarantineAttempt :=
                 quarantineAttempt (pathPattern_data s1);
               takenOnFail := job_forError job |}]
       | _, _ => []
       end ∧
     pathPattern_data s' = pathPattern_data s1 ∧
     warningLog s' = warningLog s1 ∧
     world s' = world s2 ∧
     new_calls s s' = new_calls s1 s2).
Proof.
  destruct (enabled this) eqn:Hen.
  - right. split; [done|].
    destruct (resolve_returns forError options s Hen) as [job Hjob].
    destruct (Capturer.resolve this forError options s) as [r1 s1] eqn:Hres.
    simpl in Hjob. subst r1. exists job, s1. split; [done|].
    apply (capture_decompose _ _ _ _ _ Hen Hres).
  - left. split; [done|]. unfold Capturer._capture. by rewrite Hen.
Qed.

(** The calls of an invocation are those of the pipeline of its job. *)
Lemma capture_log forError options s :
  new_calls s (Capturer._capture this forError options s).2 = [] ∨
  ∃ job s1,
    Capturer.resolve this forError options s = (Returned job, s1) ∧
    new_calls s (Capturer._capture this forError options s).2 =
      new_calls s1 (Capturer.pipeline this job s1).2.
Proof.
  destruct (capture_cases forError options s) as [[_ ->]|(_ & job & s1 & Hres & Hc)].
  - left. apply new_calls_same.
  - right. exists job, s1. split; [done|].
    destruct (Capturer._capture this forError options s). simpl. apply Hc.
Qed.
End Sequential.

(** ** Geometry *)

Lemma gt_spec (a b : Q) : JS.gt a b = true ↔ (b < a)%Q.
Proof.
  unfold JS.gt. rewrite negb_true_iff, <- not_true_iff_false, Qle_bool_iff.
  split; [apply Qnot_le_lt | apply Qlt_not_le].
Qed.

Lemma Math_max_Qmax (a b : Q) : (JS.Math_max a b == Qmax a b)%Q.
Proof.
  unfold JS.Math_max. destruct (Qle_bool a b) eqn:Hle.
  - apply Qle_bool_iff in Hle. symmetry. by apply Q.max_r.
  - assert (b < a)%Q as Hlt by (apply gt_spec; unfold JS.gt; by rewrite Hle).
    symmetry. apply Q.max_l. by apply Qlt_le_weak.
Qed.

(** The dimension picked by the code is the one the specification names. *)
Lemma dimension_rule (fullDim documentDim bodyDim : Q) :
  (Capturer._getDimensionWithoutScrollbar fullDim documentDim bodyDim
   == spec_dimension fullDim documentDim bodyDim)%Q.
Proof.
  unfold Capturer._getDimensionWithoutScrollbar, spec_dimension.
  destruct (JS.gt bodyDim fullDim) eqn:Hb.
  - apply gt_spec in Hb. destruct (Qlt_le_dec fullDim bodyDim) as [|Hle];
      [reflexivity | by apply Qle_not_lt in Hle].
  - destruct (Qlt_le_dec fullDim bodyDim) as [Hlt|_].
    { apply gt_spec in Hlt. congruence. }
    destruct (JS.gt documentDim fullDim) eqn:Hd.
    + apply gt_spec in Hd. destruct (Qlt_le_dec fullDim documentDim) as [|Hle];
        [reflexivity | by apply Qle_not_lt in Hle].
    + destruct (Qlt_le_dec fullDim documentDim) as [Hlt|_].
      { apply gt_spec in Hlt. congruence. }
      apply Math_max_Qmax.
Qed.

Lemma Math_floor_floors (x : Q) : floors_to x (JS.Math_floor x).
Proof.
  split; [apply Qfloor_le|].
  pose proof (Qlt_floor x) as Hlt. rewrite inject_Z_plus in Hlt. exact Hlt.
Qed.

Lemma floors_to_compat (x y : Q) (n : Z) : (x == y)%Q → floors_to x n → floors_to y n.
Proof. intros Heq [Hlo Hhi]. split; by rewrite <- Heq. Qed.

Lemma Math_round_rounds (x : Q) : rounds_to x (JS.Math_round x).
Proof.
  unfold rounds_to, JS.Math_round.
  pose proof (Qfloor_le (x + (1 # 2))) as Hlo.
  pose proof (Qlt_floor (x + (1 # 2))) as Hhi.
  rewrite inject_Z_plus in Hhi. change (inject_Z 1) with 1%Q in Hhi.
  split; lra.
Qed.

(** Rounding to the nearest integer is a function. *)
Lemma rounds_to_unique (x : Q) (n m : Z) : rounds_to x n → rounds_to x m → n = m.
Proof.
  intros [Hn1 Hn2] [Hm1 Hm2].
  assert (inject_Z n < inject_Z m + 1)%Q as H1 by lra.
  assert (inject_Z m < inject_Z n + 1)%Q as H2 by lra.
  change 1%Q with (inject_Z 1) in H1, H2.
  rewrite <- inject_Z_plus, <- Zlt_Qlt in H1.
  rewrite <- inject_Z_plus, <- Zlt_Qlt in H2. lia.
Qed.

(** ** Rounding to binary64 *)

Section Rounding.
Import Binary64.

Lemma Qabs_cases (x : Q) :
  ((0 <= x)%Q ∧ (Qabs x == x)%Q) ∨ ((x <= 0)%Q ∧ (Qabs x == - x)%Q).
Proof.
  destruct (Qlt_le_dec x 0) as [Hneg|Hpos].
  - right. split; [lra|]. apply Qabs_neg. lra.
  - left. split; [done|]. by apply Qabs_pos.
Qed.

Lemma pow2_pos e : (0 < pow2 e)%Q.
Proof. apply Qpower_0_lt. lra. Qed.

Lemma pow2_add a b : (pow2 (a + b) == pow2 a * pow2 b)%Q.
Proof. apply Qpower_plus. lra. Qed.

Lemma pow2_succ e : (pow2 (e + 1) == 2 * pow2 e)%Q.
Proof. rewrite pow2_add. unfold pow2 at 2. simpl. lra. Qed.

Lemma pow2_le a b : a ≤ b → (pow2 a <= pow2 b)%Q.
Proof. intros Hle. apply Qpower_le_compat_l; [done|lra]. Qed.

Lemma pow2_lt a b : a < b → (pow2 a < pow2 b)%Q.
Proof. intros Hlt. apply Qpower_lt_compat_l; [done|lra]. Qed.

Lemma pow2_Z n : 0 ≤ n → (pow2 n == inject_Z (2 ^ n))%Q.
Proof. intros Hn. symmetry. by apply (Zpower_Qpower 2). Qed.

Lemma pow2_unique a b v :
  (pow2 a <= v)%Q → (v < pow2 (a + 1))%Q →
  (pow2 b <= v)%Q → (v < pow2 (b + 1))%Q → a = b.
Proof.
  intros Ha1 Ha2 Hb1 Hb2.
  destruct (Z.lt_trichotomy a b) as [Hlt|[Heq|Hgt]]; [|done|].
  - pose proof (pow2_le (a + 1) b ltac:(lia)). lra.
  - pose proof (pow2_le (b + 1) a ltac:(lia)). lra.
Qed.

Lemma ilog2_spec x :
  ¬ (x == 0)%Q →
  (pow2 (ilog2 x) <= Qabs x)%Q ∧ (Qabs x < pow2 (ilog2 x + 1))%Q.
Proof.
  intros Hx. unfold ilog2.
  set (n := Z.abs (Qnum x)). set (d := Qden x).
  assert (0 < n) as Hn.
  { subst n. destruct x as [[|p|p] q]; simpl; try lia.
    destruct Hx. reflexivity. }
  assert (Qabs x == inject_Z n / inject_Z (Zpos d))%Q as Habs.
  { destruct x as [xn xd]. simpl. subst n d. simpl. apply Qmake_Qdiv. }
  pose proof (Z.log2_spec n Hn) as [Hn1 Hn2].
  pose proof (Z.log2_spec (Zpos d) ltac:(lia)) as [Hd1 Hd2].
  pose proof (Z.log2_nonneg n) as Hln.
  pose proof (Z.log2_nonneg (Zpos d)) as Hld.
  set (ln := Z.log2 n) in *. set (ld := Z.log2 (Zpos d)) in *.
  rewrite Zle_Qle, <- pow2_Z in Hn1 by done.
  rewrite Zlt_Qlt, <- pow2_Z in Hn2 by lia.
  rewrite Zle_Qle, <- pow2_Z in Hd1 by done.
  rewrite Zlt_Qlt, <- pow2_Z in Hd2 by lia.
  replace (Z.succ ln) with (ln + 1) in Hn2 by lia.
  replace (Z.succ ld) with (ld + 1) in Hd2 by lia.
  rewrite pow2_succ in Hn2, Hd2.
  assert (pow2 ln == pow2 (ln - ld) * pow2 ld)%Q as Hk
    by (rewrite <- pow2_add; by replace (ln - ld + ld) with ln by lia).
  pose proof (pow2_pos ln) as Ha. pose proof (pow2_pos ld) as Hb.
  pose proof (pow2_pos (ln - ld)) as Hp.
  assert (0 < inject_Z (Zpos d))%Q as HD by (unfold Qlt; simpl; lia).
  assert (Qabs x * inject_Z (Zpos d) == inject_Z n)%Q as HX.
  { rewrite Habs. field. lra. }
  set (X := Qabs x) in *. set (N := inject_Z n) in *.
  set (D := inject_Z (Zpos d)) in *.
  set (a := pow2 ln) in *. set (b := pow2 ld) in *.
  destruct (Qle_bool (pow2 (ln - ld)) X) eqn:Htest.
  - apply Qle_bool_iff in Htest. split; [done|].
    rewrite pow2_succ. set (p := pow2 (ln - ld)) in *. nra.
  - assert (X < pow2 (ln - ld))%Q as Hlt.
    { apply Qnot_le_lt. intros Hle. apply Qle_bool_iff in Hle. congruence. }
    replace (ln - ld - 1 + 1) with (ln - ld) by lia. split; [|done].
    assert (pow2 (ln - ld) == 2 * pow2 (ln - ld - 1))%Q as Hhalf.
    { rewrite <- pow2_succ. by replace (ln - ld - 1 + 1) with (ln - ld) by lia. }
    set (p := pow2 (ln - ld)) in *. set (q := pow2 (ln - ld - 1)) in *. nra.
Qed.

Lemma ilog2_comp x y : ¬ (x == 0)%Q → (x == y)%Q → ilog2 x = ilog2 y.
Proof.
  intros Hx Hxy.
  destruct (ilog2_spec x Hx) as [Hx1 Hx2].
  destruct (ilog2_spec y) as [Hy1 Hy2]; [by rewrite <- Hxy|].
  rewrite <- (Qabs_wd _ _ Hxy) in Hy1, Hy2. by eapply pow2_unique.
Qed.

Lemma rne_bound x :
  (inject_Z (rne x) - (1 # 2) <= x)%Q ∧ (x <= inject_Z (rne x) + (1 # 2))%Q.
Proof.
  unfold rne. pose proof (Qfloor_le x) as Hlo.
  pose proof (Qlt_floor x) as Hhi.
  rewrite inject_Z_plus in Hhi. change (inject_Z 1) with 1%Q in Hhi.
  destruct (x - inject_Z (Qfloor x) ?= 1 # 2)%Q eqn:Hcmp.
  - apply Qeq_alt in Hcmp.
    destruct (Z.even (Qfloor x)); rewrite ?inject_Z_plus;
      change (inject_Z 1) with 1%Q; split; lra.
  - apply Qlt_alt in Hcmp. split; lra.
  - apply Qgt_alt in Hcmp. rewrite inject_Z_plus.
    change (inject_Z 1) with 1%Q. split; lra.
Qed.

Lemma rne_nearest x (k : Z) :
  (Qabs (inject_Z (rne x) - x) <= Qabs (inject_Z k - x))%Q.
Proof.
  destruct (rne_bound x) as [Hlo Hhi].
  destruct (Z.lt_trichotomy k (rne x)) as [Hlt|[->|Hgt]]; [|lra|].
  - assert (inject_Z k + 1 <= inject_Z (rne x))%Q as Hstep.
    { change 1%Q with (inject_Z 1). rewrite <- inject_Z_plus, <- Zle_Qle. lia. }
    destruct (Qabs_cases (inject_Z (rne x) - x)) as [[_ ->]|[_ ->]],
             (Qabs_cases (inject_Z k - x)) as [[? ->]|[? ->]]; lra.
  - assert (inject_Z (rne x) + 1 <= inject_Z k)%Q as Hstep.
    { change 1%Q with (inject_Z 1). rewrite <- inject_Z_plus, <- Zle_Qle. lia. }
    destruct (Qabs_cases (inject_Z (rne x) - x)) as [[_ ->]|[_ ->]],
             (Qabs_cases (inject_Z k - x)) as [[? ->]|[? ->]]; lra.
Qed.

(** At a tie the even integer is taken. *)
Lemma rne_tie x :
  (x - inject_Z (Qfloor x) == 1 # 2)%Q → Z.even (rne x) = true.
Proof.
  intros Htie. unfold rne. apply Qeq_alt in Htie. rewrite Htie.
  destruct (Z.even (Qfloor x)) eqn:Heven; [done|].
  replace (Qfloor x + 1) with (Z.succ (Qfloor x)) by lia.
  rewrite Z.even_succ, <- Z.negb_even. by rewrite Heven.
Qed.

Lemma rne_comp x y : (x == y)%Q → rne x = rne y.
Proof.
  intros Hxy. unfold rne. rewrite (Qfloor_comp _ _ Hxy).
  assert ((x - inject_Z (Qfloor y) ?= 1 # 2)%Q
          = (y - inject_Z (Qfloor y) ?= 1 # 2)%Q) as ->; [|done].
  apply Qcompare_comp; [by rewrite Hxy | reflexivity].
Qed.

Lemma rne_Z (k : Z) : rne (inject_Z k) = k.
Proof.
  pose proof (rne_bound (inject_Z k)) as [Hlo Hhi].
  assert (inject_Z (rne (inject_Z k)) - 1 < inject_Z k)%Q as H1 by lra.
  assert (inject_Z k < inject_Z (rne (inject_Z k)) + 1)%Q as H2 by lra.
  change 1%Q with (inject_Z 1) in H1, H2.
  unfold Qminus in H1. rewrite <- inject_Z_opp, <- inject_Z_plus in H1.
  rewrite <- inject_Z_plus in H2. rewrite <- Zlt_Qlt in H1, H2. lia.
Qed.

Lemma round_zero x : (x == 0)%Q → (round x == 0)%Q.
Proof.
  intros Hx. unfold round.
  rewrite (rne_comp (x / pow2 (exponent x)) (inject_Z 0)).
  - rewrite rne_Z. change (inject_Z 0) with 0%Q. lra.
  - change (inject_Z 0) with 0%Q. unfold Qdiv.
    generalize (/ pow2 (exponent x))%Q. intros v. rewrite Hx. lra.
Qed.

Lemma round_comp x y : (x == y)%Q → (round x == round y)%Q.
Proof.
  intros Hxy. destruct (Qeq_dec x 0) as [Hz|Hnz].
  - rewrite (round_zero x Hz). rewrite round_zero; [done|]. by rewrite <- Hxy.
  - unfold round, exponent. rewrite <- (ilog2_comp x y Hnz Hxy).
    generalize (pow2 (Z.max (-1074) (ilog2 x - 52))). intros u.
    rewrite (rne_comp (x / u) (y / u)); [reflexivity|]. by rewrite Hxy.
Qed.

(** The scaled value is below [2^53] in magnitude. *)
Lemma scaled_bound x :
  (Qabs (x / pow2 (exponent x)) < inject_Z (2 ^ 53))%Q.
Proof.
  pose proof (pow2_pos (exponent x)) as Hu.
  assert (Qabs (x / pow2 (exponent x)) == Qabs x / pow2 (exponent x))%Q as ->.
  { unfold Qdiv. rewrite Qabs_Qmult, Qabs_Qinv.
    by rewrite (Qabs_pos (pow2 (exponent x))) by lra. }
  apply Qlt_shift_div_r; [done|].
  rewrite <- pow2_Z, <- pow2_add by done.
  destruct (Qeq_dec x 0) as [Hz|Hnz].
  - rewrite (Qabs_wd _ _ Hz). apply pow2_pos.
  - destruct (ilog2_spec x Hnz) as [_ Hhi].
    eapply Qlt_le_trans; [exact Hhi|]. apply pow2_le. unfold exponent. lia.
Qed.

Lemma round_in_format x : in_format (round x).
Proof.
  unfold round. set (e := exponent x). set (m := rne (x / pow2 e)).
  assert (Z.abs m ≤ 2 ^ 53) as Hm.
  { pose proof (scaled_bound x) as Hb. fold e in Hb.
    pose proof (rne_bound (x / pow2 e)) as [Hlo Hhi]. fold m in Hlo, Hhi.
    apply Qabs_Qlt_condition in Hb as [Hb1 Hb2].
    assert (inject_Z m < inject_Z (2 ^ 53) + 1)%Q as H1 by lra.
    assert (- inject_Z (2 ^ 53) - 1 < inject_Z m)%Q as H2 by lra.
    change 1%Q with (inject_Z 1) in H1, H2.
    unfold Qminus in H2.
    rewrite <- !inject_Z_opp, <- inject_Z_plus in H2.
    rewrite <- inject_Z_plus in H1. rewrite <- Zlt_Qlt in H1, H2. lia. }
  assert (-1074 ≤ e) as He by (subst e; unfold exponent; lia).
  destruct (Z.eq_dec (Z.abs m) (2 ^ 53)) as [Htop|Hlow].
  - exists (m / 2), (e + 1). split; [|split; [lia|]].
    + assert (Z.abs (m / 2) = 2 ^ 52) as ->; [|done].
      destruct (Z.abs_spec m) as [[_ Hm']|[_ Hm']]; rewrite Hm' in Htop.
      * rewrite Htop. done.
      * replace m with (- 2 ^ 53) by lia. done.
    + rewrite pow2_succ.
      assert (inject_Z m == 2 * inject_Z (m / 2))%Q as ->; [|lra].
      change 2%Q with (inject_Z 2). rewrite <- inject_Z_mult.
      apply inject_Z_injective.
      destruct (Z.abs_spec m) as [[_ Hm']|[_ Hm']]; rewrite Hm' in Htop.
      * rewrite Htop. done.
      * replace m with (- 2 ^ 53) by lia. done.
  - exists m, e. split; [lia|]. split; [done|reflexivity].
Qed.

Lemma round_nearest_multiple x (k : Z) :
  (Qabs (round x - x)
   <= Qabs (inject_Z k * pow2 (exponent x) - x))%Q.
Proof.
  unfold round. set (u := pow2 (exponent x)).
  pose proof (pow2_pos (exponent x)) as Hu. fold u in Hu.
  pose proof (rne_nearest (x / u) k) as Hn.
  set (m := rne (x / u)) in *.
  assert (∀ j : Z, (Qabs (inject_Z j * u - x)
                    == Qabs (inject_Z j - x / u) * u)%Q) as Hscale.
  { intros j. transitivity (Qabs ((inject_Z j - x / u) * u)).
    - apply Qabs_wd. field. lra.
    - rewrite Qabs_Qmult. by rewrite (Qabs_pos u) by lra. }
  rewrite !Hscale. apply Qmult_le_compat_r; [done|lra].
Qed.

Lemma round_nearest x f :
  in_format f → (Qabs (round x - x) <= Qabs (f - x))%Q.
Proof.
  intros (mf & ef & Hmf & Hef & Hf).
  set (e := exponent x). pose proof (pow2_pos e) as Hu.
  destruct (Z_le_gt_dec e ef) as [Hcoarse|Hfine].
  - (* [f] is a multiple of the last place of [x] *)
    assert (f == inject_Z (mf * 2 ^ (ef - e)) * pow2 e)%Q as Hmult.
    { rewrite Hf, inject_Z_mult, <- pow2_Z by lia.
      rewrite <- Qmult_assoc, <- pow2_add.
      by replace (ef - e + e) with ef by lia. }
    rewrite (Qabs_wd (f - x) (inject_Z (mf * 2 ^ (ef - e)) * pow2 e - x))
      by (by rewrite Hmult).
    apply round_nearest_multiple.
  - (* [f] is below the binade of [x] *)
    destruct (Qeq_dec x 0) as [Hz|Hnz].
    { rewrite (Qabs_wd (round x - x) 0); [apply Qabs_nonneg|].
      rewrite (round_zero x Hz), Hz. lra. }
    assert (e = ilog2 x - 52) as He by (subst e; unfold exponent in *; lia).
    destruct (ilog2_spec x Hnz) as [Hlo _].
    replace (ilog2 x) with (52 + e) in Hlo by lia.
    rewrite pow2_add, pow2_Z in Hlo by done.
    assert (Qabs f < inject_Z (2 ^ 52) * pow2 e)%Q as Hsmall.
    { rewrite (Qabs_wd _ _ Hf), Qabs_Qmult.
      rewrite (Qabs_pos (pow2 ef)) by (pose proof (pow2_pos ef); lra).
      assert (Qabs (inject_Z mf) < inject_Z (2 ^ 53))%Q as Hm.
      { apply Qabs_Qlt_condition. rewrite <- inject_Z_opp, <- !Zlt_Qlt. lia. }
      assert (2 * pow2 ef <= pow2 e)%Q as Hstep.
      { rewrite <- pow2_succ. apply pow2_le. lia. }
      pose proof (pow2_pos ef) as Huf.
      pose proof (Qabs_nonneg (inject_Z mf)) as Hnn.
      change (inject_Z (2 ^ 53)) with (2 * inject_Z (2 ^ 52))%Q in Hm.
      assert (0 < inject_Z (2 ^ 52))%Q as H52 by done.
      set (a := Qabs (inject_Z mf)) in *. set (c := inject_Z (2 ^ 52)) in *.
      set (uf := pow2 ef) in *. set (u := pow2 e) in *. nra. }
    destruct (Qabs_cases x) as [[Hx Hax]|[Hx Hax]].
    + pose proof (round_nearest_multiple x (2 ^ 52)) as Hn. fold e in Hn.
      apply Qabs_Qlt_condition in Hsmall as [_ Hf2].
      set (P := (inject_Z (2 ^ 52) * pow2 e)%Q) in *.
      destruct (Qabs_cases (round x - x)) as [[? Hr]|[? Hr]],
               (Qabs_cases (f - x)) as [[? Hg]|[? Hg]],
               (Qabs_cases (P - x)) as [[? Hp]|[? Hp]];
        rewrite ?Hr, ?Hg, ?Hp in *; lra.
    + pose proof (round_nearest_multiple x (- 2 ^ 52)) as Hn. fold e in Hn.
      rewrite inject_Z_opp in Hn.
      apply Qabs_Qlt_condition in Hsmall as [Hf1 _].
      set (P := (inject_Z (2 ^ 52) * pow2 e)%Q) in *.
      assert (- inject_Z (2 ^ 52) * pow2 e == - P)%Q as HP
        by (subst P; lra).
      rewrite (Qabs_wd (- inject_Z (2 ^ 52) * pow2 e - x) (- P - x)) in Hn
        by (by rewrite HP).
      destruct (Qabs_cases (round x - x)) as [[? Hr]|[? Hr]],
               (Qabs_cases (f - x)) as [[? Hg]|[? Hg]],
               (Qabs_cases (- P - x)) as [[? Hp]|[? Hp]];
        rewrite ?Hr, ?Hg, ?Hp in *; lra.
Qed.

Lemma round_is_nearest x : nearest x (round x).
Proof. split; [apply round_in_format | apply round_nearest]. Qed.

(** A value of the format is its own rounding. *)
Lemma round_id x : in_format x → (round x == x)%Q.
Proof.
  intros Hx. pose proof (round_nearest x x Hx) as Hn.
  rewrite (Qabs_wd (x - x) 0) in Hn by lra. change (Qabs 0) with 0%Q in Hn.
  destruct (Qabs_cases (round x - x)) as [[? Hr]|[? Hr]]; rewrite Hr in Hn; lra.
Qed.

Lemma round_mono x y : (x <= y)%Q → (round x <= round y)%Q.
Proof.
  intros Hxy. apply Qnot_lt_le. intros Hlt.
  pose proof (round_nearest x (round y) (round_in_format y)) as Hx.
  pose proof (round_nearest y (round x) (round_in_format x)) as Hy.
  assert (x == y)%Q as Heq.
  { destruct (Qabs_cases (round x - x)) as [[Hs1 Ha1]|[Hs1 Ha1]],
             (Qabs_cases (round y - x)) as [[Hs2 Ha2]|[Hs2 Ha2]],
             (Qabs_cases (round y - y)) as [[Hs3 Ha3]|[Hs3 Ha3]],
             (Qabs_cases (round x - y)) as [[Hs4 Ha4]|[Hs4 Ha4]];
      rewrite ?Ha1, ?Ha2, ?Ha3, ?Ha4 in *; lra. }
  rewrite (round_comp x y Heq) in Hlt. lra.
Qed.

Lemma integer_in_format (n : Z) : Z.abs n ≤ 2 ^ 53 → in_format (inject_Z n).
Proof.
  intros Hn. destruct (Z.eq_dec (Z.abs n) (2 ^ 53)) as [Htop|Hlow].
  - exists (n / 2), 1. split; [|split; [lia|]].
    + destruct (Z.abs_spec n) as [[_ Hn']|[_ Hn']]; rewrite Hn' in Htop.
      * rewrite Htop. done.
      * replace n with (- 2 ^ 53) by lia. done.
    + change (pow2 1) with 2%Q.
      change 2%Q with (inject_Z 2). rewrite <- inject_Z_mult.
      apply inject_Z_injective.
      destruct (Z.abs_spec n) as [[_ Hn']|[_ Hn']]; rewrite Hn' in Htop.
      * rewrite Htop. done.
      * replace n with (- 2 ^ 53) by lia. done.
  - exists n, 0. split; [lia|]. split; [lia|].
    change (pow2 0) with 1%Q. lra.
Qed.

End Rounding.

(** The product of Numbers: it respects equal values, it commutes, it is
    the value of the format nearest to the exact product, and it is the
    exact product when that is a value of the format. *)
Lemma mul_comp (a a' b b' : Q) :
  (a == a')%Q → (b == b')%Q → (JS.mul a b == JS.mul a' b')%Q.
Proof. intros Ha Hb. apply round_comp. by rewrite Ha, Hb. Qed.

Lemma mul_comm (a b : Q) : (JS.mul a b == JS.mul b a)%Q.
Proof. apply round_comp. apply Qmult_comm. Qed.

Lemma mul_nearest (a b : Q) : Binary64.nearest (a * b) (JS.mul a b).
Proof. apply round_is_nearest. Qed.

Lemma mul_exact (a b : Q) :
  Binary64.in_format (a * b) → (JS.mul a b == a * b)%Q.
Proof. apply round_id. Qed.

Lemma mul_mono (a b c : Q) :
  (0 <= c)%Q → (a <= b)%Q → (JS.mul a c <= JS.mul b c)%Q.
Proof. intros Hc Hab. apply round_mono. by apply Qmult_le_compat_r. Qed.

Lemma floor_of_mul (r d d' : Q) :
  (d' == d)%Q →
  floor_of_product r d (JS.Math_floor (JS.mul d' r)).
Proof.
  intros Hd.
  assert (JS.mul d' r == JS.mul r d)%Q as Hmul
    by (rewrite mul_comm; apply mul_comp; [reflexivity | exact Hd]).
  split; [apply mul_nearest|]. split.
  - eapply floors_to_compat; [exact Hmul | apply Math_floor_floors].
  - intros Hexact. eapply floors_to_compat; [|apply Math_floor_floors].
    rewrite Hmul. by apply mul_exact.
Qed.

(** C7.  Each dimension of the client area is the floor of the product of
    the device pixel ratio and of the dimension that the rule of the
    specification picks, the product being the product of Numbers: the
    value of the format nearest to the exact product, and the exact product
    itself when that is a value of the format.  In particular the document
    dimension is used when both the body and the document exceed the
    window. *)
Theorem client_area_dimensions (page : PageDimensions) :
  let w :=
    spec_dimension (innerWidth page) (documentWidth page) (bodyWidth page) in
  let h :=
    spec_dimension (innerHeight page) (documentHeight page) (bodyHeight page) in
  ∃ area,
    Capturer._getClientAreaDimensions (Some page) = Some area ∧
    floor_of_product (dpr page) w (width area) ∧
    floor_of_product (dpr page) h (height area) ∧
    ((innerWidth page < bodyWidth page)%Q →
     (innerWidth page < documentWidth page)%Q →
     floor_of_product (dpr page) (documentWidth page) (width area)) ∧
    ((innerHeight page < bodyHeight page)%Q →
     (innerHeight page < documentHeight page)%Q →
     floor_of_product (dpr page) (documentHeight page) (height area)).
Proof.
  intros w h. eexists. split; [reflexivity|]. simpl.
  assert (floor_of_product (dpr page) w
            (JS.Math_floor
               (JS.mul
                  (Capturer._getDimensionWithoutScrollbar (innerWidth page)
                     (documentWidth page) (bodyWidth page))
                  (dpr page)))) as Hwidth
    by (apply floor_of_mul; apply dimension_rule).
  assert (floor_of_product (dpr page) h
            (JS.Math_floor
               (JS.mul
                  (Capturer._getDimensionWithoutScrollbar (innerHeight page)
                     (documentHeight page) (bodyHeight page))
                  (dpr page)))) as Hheight
    by (apply floor_of_mul; apply dimension_rule).
  split; [exact Hwidth|]. split; [exact Hheight|]. split.
  - intros Hb _. subst w. unfold spec_dimension in Hwidth.
    destruct (Qlt_le_dec (innerWidth page) (bodyWidth page)) as [|Hle];
      [exact Hwidth | by apply Qle_not_lt in Hle].
  - intros Hb _. subst h. unfold spec_dimension in Hheight.
    destruct (Qlt_le_dec (innerHeight page) (bodyHeight page)) as [|Hle];
      [exact Hheight | by apply Qle_not_lt in Hle].
Qed.

(** ** Properties of one invocation *)

Section Invocation.
Context `{Collaborators World Image MarkSeed} (this : Capturer).
Implicit Types (s : state World Image MarkSeed) (job : Job MarkSeed)
  (options : Options MarkSeed).

(** C3 (amended).  When the raw capture returns and no regular file is found
    at the staging path afterwards (the capture created none, and none was
    left there before), an enabled capturer whose test run is registered
    still returns the resolved destination path; the only collaborator calls
    are the raw capture and the check of the staging file, so the cropper,
    the final write and the thumbnail generator are not invoked; and one
    record is appended, whose [screenshotData] is undefined. *)
Theorem capture_without_staged_file forError options s job s1 run w :
  enabled this = true →
  testEntry_testRuns this !! browserId this = Some run →
  Capturer.resolve this forError options s = (Returned job, s1) →
  let area := Capturer._getClientAreaDimensions (pageDimensions options) in
  let fullPage := default (fullPage this) (opt_fullPage options) in
  provider_takeScreenshot (browserId this) (job_tempPath job)
    (width <$> area) (height <$> area) fullPage (world s) = (Returned tt, w) →
  staged (job_tempPath job) w = false →
  let (r, s') := Capturer._capture this forError options s in
  r = Returned (Some (job_screenshotPath job)) ∧
  new_calls s s' =
    [call_takeScreenshot (browserId this) (job_tempPath job)
       (width <$> area) (height <$> area) fullPage (Returned tt);
     call_stat (job_tempPath job) (stat (job_tempPath job) w).1] ∧
  forallb
    (λ c, negb (is_cropScreenshot c || is_writePng c || is_makeDir c
                || is_writeFile c || is_generateThumbnail c))
    (new_calls s s') = true ∧
  ∃ record,
    testEntry_screenshots s' = testEntry_screenshots s ++ [record] ∧
    screenshotPath record = job_screenshotPath job ∧
    screenshotData record = None.
Proof.
  intros Hen Hrun Hres area fp Htaken Hstaged.
  pose proof (capture_decompose this forError options s job s1 Hen Hres) as Hc.
  destruct (resolve_job this _ _ _ _ _ Hres) as (_ & Hopt & _).
  destruct (resolve_frame this forError options s) as (Hw & _).
  rewrite Hres in Hw. simpl in Hw.
  subst area fp. rewrite <- Hopt, <- Hw in Htaken.
  destruct (pipeline_not_staged this job s1 w Htaken Hstaged) as [Hpr Hlog].
  simpl in Hc. rewrite Hpr, Hrun in Hc.
  destruct (Capturer._capture this forError options s) as [r s'].
  destruct Hc as (-> & Hshots & _ & _ & _ & Hcalls).
  rewrite Hcalls, Hlog, <- Hopt. repeat split; try done.
  eexists. split; [exact Hshots|]. done.
Qed.


(** C5 (amended).  A disabled capturer returns null and leaves the whole
    state as it is: queue, counters, records, warnings, world and call log.
    An enabled capturer appends exactly one record when the invocation
    returns, and none when it throws. *)
Theorem capture_records forError options s :
  let (r, s') := Capturer._capture this forError options s in
  if enabled this then
    match r with
    | Returned path =>
        ∃ record,
          path = Some (screenshotPath record) ∧
          testEntry_screenshots s' = testEntry_screenshots s ++ [record]
    | Thrown _ => testEntry_screenshots s' = testEntry_screenshots s
    end
  else r = Returned None ∧ s' = s.
Proof.
  destruct (capture_cases this forError options s)
    as [[Hen ->]|(Hen & job & s1 & Hres & Hc)]; rewrite Hen; [done|].
  simpl in Hc.
  destruct (Capturer._capture this forError options s) as [r s'].
  destruct Hc as (-> & Hshots & _).
  destruct (Capturer.pipeline this job s1).1 as [payload|e];
    [destruct (testEntry_testRuns this !! browserId this)|];
    rewrite ?app_nil_r in Hshots; try done.
  eexists. split; [|exact Hshots]. done.
Qed.

(** C6 (amended).  Once the staged file is found to exist, it is read as an
    image and, if that succeeds, the cropper is the next call, whether or not
    the request carries a crop rectangle or a marker seed: it is handed the
    marker seed, the client area, the staging path and the scaled rectangle.
    When it returns a modified image, the next call writes that image to the
    staging path, and the read-back of the staging path follows. *)
Theorem cropper_invoked_on_staged_file forError options s i path stats :
  let log := new_calls s (Capturer._capture this forError options s).2 in
  log !! i = Some (call_stat path (Returned stats)) →
  isFile stats = true →
  ∃ decoded,
    log !! S i = Some (call_readPngFile path decoded) ∧
    match decoded with
    | Thrown _ => log !! S (S i) = None
    | Returned image =>
        ∃ result,
          log !! S (S i) =
            Some (call_cropScreenshot image
                    {| crop_markSeed := markSeed options;
                       crop_clientAreaDimensions :=
                         Capturer._getClientAreaDimensions
                           (pageDimensions options);
                       crop_path := path;
                       crop_cropDimensions :=
                         Capturer._getCropDimensions (cropDimensions options)
                           (pageDimensions options) |}
                    result) ∧
          match result with
          | Thrown _ => log !! S (S (S i)) = None
          | Returned None =>
              ∃ read, log !! S (S (S i)) = Some (call_readFile path read)
          | Returned (Some cropped) =>
              ∃ written,
                log !! S (S (S i)) = Some (call_writePng path cropped written) ∧
                match written with
                | Thrown _ => log !! S (S (S (S i))) = None
                | Returned _ =>
                    ∃ read,
                      log !! S (S (S (S i))) = Some (call_readFile path read)
                end
          end
    end.
Proof.
  intros log Hi Hfile. subst log.
  destruct (capture_log this forError options s) as [Hnil|(job & s1 & Hres & Hlog)].
  { rewrite Hnil in Hi. done. }
  rewrite Hlog in *.
  destruct (resolve_job this _ _ _ _ _ Hres) as (_ & Hopt & _).
  destruct (pipeline_crop_stage this job s1 i path stats Hi Hfile)
    as (decoded & Hread & Hrest).
  exists decoded. split; [done|]. destruct decoded as [image|e]; [|done].
  destruct Hrest as (cropOptions & result & Hcrop & Hpath & Hrest).
  exists result. split; [|done].
  rewrite Hcrop. do 2 f_equal.
  assert (Hin : call_cropScreenshot image cropOptions result
                ∈ new_calls s1 (Capturer.pipeline this job s1).2)
    by (eapply list_elem_of_lookup_2; exact Hcrop).
  apply pipeline_crop_options in Hin. rewrite Hin in Hpath |- *. simpl in Hpath.
  by rewrite Hpath, Hopt.
Qed.

(** The rectangle handed to the cropper by an invocation is the scaled
    rectangle of its request. *)
Lemma capture_crop_rectangle forError options s image cropOptions result :
  call_cropScreenshot image cropOptions result
    ∈ new_calls s (Capturer._capture this forError options s).2 →
  crop_cropDimensions cropOptions =
    Capturer._getCropDimensions (cropDimensions options) (pageDimensions options).
Proof.
  intros Hin.
  destruct (capture_log this forError options s) as [Hnil|(job & s1 & Hres & Hlog)].
  { rewrite Hnil in Hin. by apply elem_of_nil in Hin. }
  rewrite Hlog in Hin. apply pipeline_crop_options in Hin.
  destruct (resolve_job this _ _ _ _ _ Hres) as (_ & Hopt & _).
  rewrite Hin, Hopt. done.
Qed.

(** C8.  When the request carries a crop rectangle and the page geometry, the
    rectangle handed to the cropper has each edge equal to the edge in CSS
    pixels times the device pixel ratio, rounded to the nearest integer, each
    edge on its own; the product is the product of Numbers, the value of the
    format nearest to the exact product. *)
Theorem crop_rectangle_scaled forError options s crop page image cropOptions result :
  cropDimensions options = Some crop →
  pageDimensions options = Some page →
  call_cropScreenshot image cropOptions result
    ∈ new_calls s (Capturer._capture this forError options s).2 →
  ∃ scaled,
    crop_cropDimensions cropOptions = Some scaled ∧
    Capturer._getCropDimensions (Some crop) (Some page) = Some scaled ∧
    round_of_product (top crop) (dpr page) (scaled_top scaled) ∧
    round_of_product (left crop) (dpr page) (scaled_left scaled) ∧
    round_of_product (bottom crop) (dpr page) (scaled_bottom scaled) ∧
    round_of_product (right crop) (dpr page) (scaled_right scaled).
Proof.
  intros Hcrop Hpage Hin.
  apply capture_crop_rectangle in Hin.
  rewrite Hcrop, Hpage in Hin. eexists. split; [exact Hin|].
  split; [reflexivity|]. simpl.
  assert (∀ edge,
    round_of_product edge (dpr page)
      (JS.Math_round (JS.mul edge (dpr page)))) as Hedge.
  { intros edge. split; [apply mul_nearest|]. split.
    - apply Math_round_rounds.
    - intros Hexact. unfold rounds_to.
      rewrite <- (mul_exact _ _ Hexact). apply Math_round_rounds. }
  split; [apply Hedge|]. split; [apply Hedge|].
  split; apply Hedge.
Qed.

(** C10.  When the crop rectangle or the page geometry is absent, the scaling
    yields null and the cropper is handed a null rectangle: a rectangle given
    without geometry is dropped, neither applied unscaled nor rejected. *)
Theorem crop_rectangle_dropped forError options s image cropOptions result :
  cropDimensions options = None ∨ pageDimensions options = None →
  call_cropScreenshot image cropOptions result
    ∈ new_calls s (Capturer._capture this forError options s).2 →
  Capturer._getCropDimensions (cropDimensions options) (pageDimensions options)
    = None ∧
  crop_cropDimensions cropOptions = None.
Proof.
  intros Habsent Hin. apply capture_crop_rectangle in Hin. rewrite Hin.
  assert (Capturer._getCropDimensions (cropDimensions options)
            (pageDimensions options) = None) as ->; [|done].
  destruct Habsent as [-> | ->]; [done|]. by destruct (cropDimensions options).
Qed.

(** C9.  With an explicit path, an enabled capturer changes neither
    [fileIndex] nor [errorFileIndex], and resolves the destination to the
    explicit path under the base directory, with the default extension
    appended when the explicit path has no image extension. *)
Theorem explicit_path_resolution forError options s base path :
  baseScreenshotsPath this = Some base →
  base ≠ "" →
  customPath options = Some path →
  path ≠ "" →
  let destination :=
    joinPath [base;
              if hasImageExtension path then path
              else (path ++ "." ++ DEFAULT_SCREENSHOT_EXTENSION)%string] in
  let (r, s') := Capturer._capture this forError options s in
  fileIndex (pathPattern_data s') = fileIndex (pathPattern_data s) ∧
  errorFileIndex (pathPattern_data s') = errorFileIndex (pathPattern_data s) ∧
  (∃ job s1,
     Capturer.resolve this forError options s = (Returned job, s1) ∧
     job_screenshotPath job = destination) ∧
  ∀ returned, r = Returned returned → returned = Some destination.
Proof.
  intros Hbase Hne Hpath Hpne destination.
  destruct (capture_cases this forError options s)
    as [[Hen _]|(_ & job & s1 & Hres & Hc)].
  { unfold enabled in Hen. rewrite Hbase in Hen. simpl in Hen.
    apply negb_false_iff, String.eqb_eq in Hen. done. }
  destruct (resolve_explicit this _ _ _ _ _ _ _ Hbase Hpath Hpne Hres)
    as [Hdata Hdest].
  simpl in Hc. destruct (Capturer._capture this forError options s) as [r s'].
  destruct Hc as (-> & _ & Hd & _). rewrite Hd, Hdata.
  split; [done|]. split; [done|]. split; [by exists job, s1|].
  intros returned Hret.
  destruct (Capturer.pipeline this job s1).1;
    [destruct (testEntry_testRuns this !! browserId this)|];
    simplify_eq. by rewrite Hdest.
Qed.

(** Without an explicit path, one invocation increments the counter of its
    reason by one and leaves the other counter, whether it returns or throws. *)
Lemma capture_counters forError options s :
  enabled this = true →
  JS.truthy_string (customPath options) = false →
  let s' := (Capturer._capture this forError options s).2 in
  fileIndex (pathPattern_data s') =
    fileIndex (pathPattern_data s) + (if forError then 0 else 1) ∧
  errorFileIndex (pathPattern_data s') =
    errorFileIndex (pathPattern_data s) + (if forError then 1 else 0).
Proof.
  intros Hen Hnone.
  destruct (capture_cases this forError options s)
    as [[Hoff _]|(_ & job & s1 & Hres & Hc)]; [congruence|].
  destruct (resolve_generated this _ _ _ _ _ Hnone Hres) as (Hf & He & _).
  simpl in *. destruct (Capturer._capture this forError options s) as [r s'].
  destruct Hc as (_ & _ & Hd & _). simpl. by rewrite Hd.
Qed.

End Invocation.

(** ** Properties of concurrent invocations *)

Section Concurrent.
Context `{Collaborators World Image MarkSeed} (this : Capturer).
Implicit Types (s : state World Image MarkSeed) (job : Job MarkSeed)
  (options : Options MarkSeed) (m : Scheduler.Machine World Image MarkSeed)
  (q : AsyncQueue.t) (tr : list Scheduler.Obs).
Import Scheduler.

(** Pushing the record leaves everything but the record list. *)
Lemma finish_frame job data s :
  let s' := (Capturer.finish this job data s).2 in
  queue s' = queue s ∧ pathPattern_data s' = pathPattern_data s ∧
  warningLog s' = warningLog s ∧ world s' = world s ∧ calls s' = calls s.
Proof. unfold Capturer.finish. unfold_monad. exec; done. Qed.

(** *** What each event does to the queue, the counters and the trace *)

Lemma step_invoke forError options m m' :
  step this (Invoke forError options) m = Some m' →
  (enabled this = false ∧ m' = m) ∨
  (enabled this = true ∧
    ∃ job s1,
      Capturer.resolve this forError options (mstate m) = (Returned job, s1) ∧
      trace m' =
        trace m ++ [Queued (job_screenshotPath job)
                      (AsyncQueue.next (queue (mstate m)))] ∧
      queue (mstate m') =
        (AsyncQueue.enqueue (job_screenshotPath job) (queue (mstate m))).2 ∧
      jobs m' = <[AsyncQueue.next (queue (mstate m)):=job]> (jobs m) ∧
      pathPattern_data (mstate m') = pathPattern_data s1 ∧
      warningLog (mstate m') = warningLog s1).
Proof.
  unfold step, submit. destruct (enabled this) eqn:Hen; simpl.
  - destruct (resolve_returns this forError options (mstate m) Hen) as [job Hjob].
    destruct (resolve_frame this forError options (mstate m)) as (_ & _ & Hq & _).
    unfold bind at 1.
    destruct (Capturer.resolve this forError options (mstate m)) as [r1 s1].
    simpl in Hjob, Hq. subst r1.
    unfold bind, Capturer.queue_enqueue, ret, AsyncQueue.enqueue. simpl.
    intros [= <-]. simpl. right. split; [done|].
    exists job, s1. rewrite Hq. done.
  - intros [= <-]. left. by destruct m.
Qed.

Lemma step_start key m m' :
  step this (Start key) m = Some m' →
  ∃ tk q,
    AsyncQueue.start key (queue (mstate m)) = Some (tk, q) ∧
    mstate m' = set_queue q (mstate m) ∧ jobs m' = jobs m ∧
    trace m' = trace m ++ [Started key tk].
Proof.
  unfold step. destruct (AsyncQueue.start key (queue (mstate m))) as [[tk q]|];
    [|done].
  intros [= <-]. by exists tk, q.
Qed.

Lemma step_finish key m m' :
  step this (Finish key) m = Some m' →
  ∃ tk,
    AsyncQueue.inFlight key (queue (mstate m)) = Some tk ∧
    queue (mstate m') = AsyncQueue.leave key tk (queue (mstate m)) ∧
    pathPattern_data (mstate m') = pathPattern_data (mstate m) ∧
    warningLog (mstate m') = warningLog (mstate m) ∧
    jobs m' = jobs m ∧
    trace m' = trace m ++ [Finished key tk].
Proof.
  unfold step. destruct (AsyncQueue.inFlight key (queue (mstate m))) as [tk|];
    [|done].
  destruct (jobs m !! tk) as [job|]; [|done].
  pose proof (pipeline_frame this job (mstate m)) as (Hd & _ & Hw & Hq & _).
  destruct (Capturer.pipeline this job (mstate m)) as [r s1]. simpl in *.
  intros [= <-]. exists tk. simpl. split; [done|].
  destruct r as [data|e]; simpl.
  - pose proof (finish_frame job data
                  (set_queue (AsyncQueue.leave key tk (queue s1)) s1))
      as (Hq' & Hd' & Hw' & _).
    simpl in *. rewrite Hq', Hd', Hw', Hq, Hd, Hw. done.
  - rewrite Hq, Hd, Hw. done.
Qed.

(** *** The invariant *)

Lemma serial_scan_snoc key tr o :
  serial_scan key (tr ++ [o]) = serial_step key (serial_scan key tr) o.
Proof. unfold serial_scan. by rewrite foldl_app. Qed.

Lemma serial_scan_other key tr o :
  obs_key o ≠ key →
  is_Some (serial_scan key tr) →
  serial_scan key (tr ++ [o]) = serial_scan key tr.
Proof.
  intros Hne [[busy lo] Hscan]. rewrite serial_scan_snoc, Hscan. simpl.
  by rewrite bool_decide_eq_false_2.
Qed.

Lemma sorted_snoc (l : list nat) (n : nat) :
  StronglySorted lt l → Forall (λ tk, tk < n)%nat l → StronglySorted lt (l ++ [n]).
Proof.
  induction 1 as [|a l Hs IH Ha]; intros Hall; simpl.
  - repeat constructor.
  - apply Forall_cons in Hall as [Han Hall]. constructor; [by apply IH|].
    apply Forall_app. split; [done|]. by constructor.
Qed.

Lemma filter_above (tk : nat) (l : list nat) :
  Forall (lt tk) l → List.filter (λ a, negb (Nat.eqb a tk)) l = l.
Proof.
  induction 1 as [|a l Ha _ IH]; simpl; [done|].
  destruct (Nat.eqb_spec a tk); [lia|]. simpl. by rewrite IH.
Qed.

Lemma lane_ok_empty key : lane_ok key AsyncQueue.empty [].
Proof. exists None, []. simpl. rewrite lookup_empty. done. Qed.

Lemma lane_ok_enqueue key k q tr :
  lane_ok key q tr →
  lane_ok key (AsyncQueue.enqueue k q).2 (tr ++ [Queued k (AsyncQueue.next q)]).
Proof.
  intros (busy & pending & Hscan & Hlane). simpl.
  destruct (decide (k = key)) as [->|Hne].
  - exists busy, (pending ++ [AsyncQueue.next q]).
    rewrite serial_scan_snoc, Hscan. simpl.
    rewrite bool_decide_eq_true_2 by done. split; [done|].
    simpl. rewrite lookup_insert_eq.
    destruct (AsyncQueue.lanes q !! key) as [[running ops]|]; simpl in *.
    + destruct Hlane as (Hsorted & Hbound & Hrun).
      split; [by apply sorted_snoc|]. split.
      { apply Forall_app. split; [|repeat constructor; lia].
        eapply Forall_impl; [exact Hbound|]. simpl. lia. }
      destruct running.
      * destruct Hrun as (tk & -> & ->). by exists tk.
      * destruct Hrun as (-> & -> & Hne). repeat split. by destruct pending.
    + destruct Hlane as [-> ->]. repeat split; try done; repeat constructor; lia.
  - exists busy, pending. rewrite serial_scan_other by (rewrite ?Hscan; done).
    split; [done|]. simpl. rewrite lookup_insert_ne by done.
    destruct (AsyncQueue.lanes q !! key) as [[running ops]|]; [|done].
    simpl in *. destruct Hlane as (Hsorted & Hbound & Hrun).
    repeat split; [done| |done].
    eapply Forall_impl; [exact Hbound|]. simpl. lia.
Qed.

Lemma lane_ok_start key k q tr tk q' :
  AsyncQueue.start k q = Some (tk, q') →
  lane_ok key q tr → lane_ok key q' (tr ++ [Started k tk]).
Proof.
  unfold AsyncQueue.start. intros Hstart (busy & pending & Hscan & Hlane).
  destruct (AsyncQueue.lanes q !! k) as [[[] [|tk' rest]]|] eqn:Hk; try done.
  simplify_eq/=. destruct (decide (k = key)) as [->|Hne].
  - rewrite Hk in Hlane. simpl in Hlane.
    destruct Hlane as (Hsorted & Hbound & -> & <- & _).
    exists (Some tk), rest. rewrite serial_scan_snoc, Hscan. simpl.
    rewrite bool_decide_eq_true_2 by done.
    rewrite bool_decide_eq_true_2 by done.
    split; [done|]. rewrite lookup_insert_eq. simpl.
    split; [done|]. split; [done|]. by exists tk.
  - exists busy, pending. rewrite serial_scan_other by (rewrite ?Hscan; done).
    split; [done|]. simpl. by rewrite lookup_insert_ne.
Qed.

Lemma lane_ok_leave key k q tr tk :
  AsyncQueue.inFlight k q = Some tk →
  lane_ok key q tr →
  lane_ok key (AsyncQueue.leave k tk q) (tr ++ [Finished k tk]).
Proof.
  unfold AsyncQueue.inFlight, AsyncQueue.leave.
  intros Hfly (busy & pending & Hscan & Hlane).
  destruct (AsyncQueue.lanes q !! k) as [[[] [|tk' rest]]|] eqn:Hk; try done.
  simplify_eq/=. rewrite Nat.eqb_refl. simpl.
  destruct (decide (k = key)) as [->|Hne].
  - rewrite Hk in Hlane. simpl in Hlane.
    destruct Hlane as (Hsorted & Hbound & tk' & [= <- <-] & ->).
    apply StronglySorted_inv in Hsorted as [Hsorted Hgt].
    apply Forall_cons in Hbound as [_ Hbound].
    rewrite filter_above by done.
    exists None, rest. rewrite serial_scan_snoc, Hscan. simpl.
    rewrite bool_decide_eq_true_2 by done.
    rewrite bool_decide_eq_true_2 by done.
    split; [done|].
    destruct rest as [|tk2 rest]; simpl.
    + by rewrite lookup_delete_eq.
    + rewrite lookup_insert_eq. simpl.
      rewrite bool_decide_eq_true_2 by done. done.
  - exists busy, pending. rewrite serial_scan_other by (rewrite ?Hscan; done).
    split; [done|].
    destruct (List.filter _ rest); simpl;
      [by rewrite lookup_delete_ne | by rewrite lookup_insert_ne].
Qed.

(** Every event keeps the invariant, for every key. *)
Lemma step_lane_ok e m m' :
  step this e m = Some m' →
  (∀ key, lane_ok key (queue (mstate m)) (trace m)) →
  ∀ key, lane_ok key (queue (mstate m')) (trace m').
Proof.
  intros Hstep Hok key. destruct e as [forError options|k|k].
  - apply step_invoke in Hstep as [[_ ->]|(_ & job & s1 & _ & Htr & Hq & _)];
      [done|].
    rewrite Htr, Hq. by apply lane_ok_enqueue.
  - apply step_start in Hstep as (tk & q & Hstart & Hs & _ & Htr).
    rewrite Htr, Hs. simpl. by eapply lane_ok_start.
  - apply step_finish in Hstep as (tk & Hfly & Hq & _ & _ & _ & Htr).
    rewrite Htr, Hq. by apply lane_ok_leave.
Qed.

Lemma run_lane_ok evs m m' :
  run this evs m = Some m' →
  (∀ key, lane_ok key (queue (mstate m)) (trace m)) →
  ∀ key, lane_ok key (queue (mstate m')) (trace m').
Proof.
  revert m. induction evs as [|e evs IH]; intros m; simpl.
  - by intros [= <-].
  - destruct (step this e m) as [m1|] eqn:Hstep; [|done].
    intros Hrun Hok. apply (IH m1 Hrun). by eapply step_lane_ok.
Qed.

(** Whatever the schedule, the operations of a key run one at a time and in
    the order of their submission. *)
Lemma run_serialized evs s m key :
  run this evs (boot s) = Some m → serialized key (trace m).
Proof.
  intros Hrun.
  destruct (run_lane_ok evs (boot s) m Hrun (λ k, lane_ok_empty k) key)
    as (busy & pending & Hscan & _).
  unfold serialized. by rewrite Hscan.
Qed.

(** *** Schedules *)



(** The counters advance with the invocations only, whatever the schedule. *)
Lemma run_counters evs m m' :
  enabled this = true →
  no_explicit_path evs →
  run this evs m = Some m' →
  fileIndex (pathPattern_data (mstate m')) =
    fileIndex (pathPattern_data (mstate m)) + Z.of_nat (invocations false evs) ∧
  errorFileIndex (pathPattern_data (mstate m')) =
    errorFileIndex (pathPattern_data (mstate m)) + Z.of_nat (invocations true evs).
Proof.
  intros Hen. revert m. induction evs as [|e evs IH]; intros m Hnone; simpl.
  - intros [= <-]. unfold invocations. simpl. lia.
  - apply Forall_cons in Hnone as [He Hnone].
    destruct (step this e m) as [m1|] eqn:Hstep; [|done].
    intros Hrun. destruct (IH m1 Hnone Hrun) as [Hf Herr].
    rewrite Hf, Herr. clear IH Hrun Hf Herr.
    unfold invocations. simpl. destruct e as [forError options|k|k].
    + apply step_invoke in Hstep
        as [[Hoff _]|(_ & job & s1 & Hres & _ & _ & _ & Hd & _)]; [congruence|].
      destruct (resolve_generated this _ _ _ _ _ He Hres) as (Hf & Herr & _).
      rewrite Hd, Hf, Herr. destruct forError; simpl; lia.
    + apply step_start in Hstep as (tk & q & _ & -> & _). simpl. lia.
    + apply step_finish in Hstep as (tk & _ & _ & -> & _). lia.
Qed.





(** C2.  Without an explicit path, one invocation of an enabled capturer
    increments the counter of its reason by exactly one and leaves the other
    counter, whether the rest of the pipeline succeeds or throws.  Hence,
    whatever the schedule that interleaves the invocations and their
    pipelines, [fileIndex] advances by the number of action captures and
    [errorFileIndex] by the number of error captures. *)
Theorem counters_advance_once forError options s evs m m' :
  enabled this = true →
  JS.truthy_string (customPath options) = false →
  no_explicit_path evs →
  run this evs m = Some m' →
  let s' := (Capturer._capture this forError options s).2 in
  (fileIndex (pathPattern_data s') =
     fileIndex (pathPattern_data s) + (if forError then 0 else 1) ∧
   errorFileIndex (pathPattern_data s') =
     errorFileIndex (pathPattern_data s) + (if forError then 1 else 0)) ∧
  (fileIndex (pathPattern_data (mstate m')) =
     fileIndex (pathPattern_data (mstate m))
     + Z.of_nat (invocations false evs) ∧
   errorFileIndex (pathPattern_data (mstate m')) =
     errorFileIndex (pathPattern_data (mstate m))
     + Z.of_nat (invocations true evs)).
Proof.
  intros Hen Hnone Hevs Hrun. split.
  - by apply capture_counters.
  - by apply run_counters.
Qed.

Lemma bind_eq {A B} (c : M World Image MarkSeed A)
    (k : A → M World Image MarkSeed B) s :
  bind c k s =
  match c s with
  | (Returned a, s') => k a s'
  | (Thrown e, s') => (Thrown e, s')
  end.
Proof. reflexivity. Qed.

(** The direct reading of [_capture] is the schedule in which the invocation
    is resumed at once: when its destination is not in the queue, submitting
    it, starting its operation and ending it leaves the state that
    [_capture] computes. *)
Lemma capture_as_schedule forError options s job s1 jobs0 tr :
  enabled this = true →
  Capturer.resolve this forError options s = (Returned job, s1) →
  AsyncQueue.isInQueue (job_screenshotPath job) (queue s) = false →
  let key := job_screenshotPath job in
  let tk := AsyncQueue.next (queue s) in
  ∃ m',
    run this [Invoke forError options; Start key; Finish key]
      {| mstate := s; jobs := jobs0; trace := tr |} = Some m' ∧
    mstate m' = (Capturer._capture this forError options s).2 ∧
    trace m' = tr ++ [Queued key tk; Started key tk; Finished key tk].
Proof.
  intros Hen Hres Hfree key tk. subst key tk.
  destruct (resolve_frame this forError options s) as (_ & _ & Hq & _).
  rewrite Hres in Hq. simpl in Hq.
  unfold AsyncQueue.isInQueue in Hfree. apply bool_decide_eq_false in Hfree.
  assert (AsyncQueue.lanes (queue s) !! job_screenshotPath job = None) as Hnone.
  { destruct (AsyncQueue.lanes (queue s) !! job_screenshotPath job) eqn:E;
      [destruct Hfree; eauto | done]. }
  assert (submit this forError options s =
            (Returned (Some (AsyncQueue.next (queue s), job)),
             set_queue (AsyncQueue.enqueue (job_screenshotPath job) (queue s)).2 s1))
    as Hsubmit.
  { unfold submit. rewrite Hen. simpl. rewrite bind_eq, Hres.
    rewrite bind_eq. unfold Capturer.queue_enqueue, AsyncQueue.enqueue.
    by rewrite Hq. }
  assert (Capturer._capture this forError options s =
            let pr := (Capturer.pipeline this job s1).1 in
            let s2 := (Capturer.pipeline this job s1).2 in
            let s3 :=
              set_queue
                (AsyncQueue.leave (job_screenshotPath job)
                   (AsyncQueue.next (queue s))
                   (AsyncQueue.enqueue (job_screenshotPath job) (queue s)).2)
                s2 in
            match pr with
            | Returned data =>
                (match (Capturer.finish this job data s3).1 with
                 | Returned path => Returned (Some path)
                 | Thrown e => Thrown e
                 end, (Capturer.finish this job data s3).2)
            | Thrown e => (Thrown e, s3)
            end) as Hcapture.
  { unfold Capturer._capture. rewrite Hen. simpl. rewrite bind_eq, Hres.
    unfold Capturer.addToQueue. rewrite !bind_eq.
    unfold Capturer.queue_enqueue, AsyncQueue.enqueue. rewrite Hq. simpl.
    rewrite bind_eq. unfold attempt. rewrite pipeline_set_queue.
    destruct (Capturer.pipeline this job s1) as [pr s2]. simpl.
    rewrite bind_eq. unfold Capturer.queue_leave, modify. simpl.
    destruct pr as [data|e]; simpl; [|done].
    rewrite bind_eq.
    by destruct (Capturer.finish this job data _) as [[path|e] s4]. }
  rewrite Hcapture. clear Hcapture.
  unfold run, step. simpl. rewrite Hsubmit. simpl.
  unfold AsyncQueue.start. rewrite Hnone. simpl. rewrite lookup_insert_eq. simpl.
  unfold AsyncQueue.inFlight. simpl. rewrite !lookup_insert_eq. simpl.
  rewrite !pipeline_set_queue.
  destruct (Capturer.pipeline this job s1) as [pr s2]. simpl.
  eexists. split; [reflexivity|]. simpl. split; [|by rewrite <- !app_assoc].
  unfold AsyncQueue.leave. simpl. rewrite !lookup_insert_eq. simpl.
  rewrite Nat.eqb_refl. simpl. rewrite !delete_insert_eq.
  by destruct pr.
Qed.

End Concurrent.

(** ** The effects of a burst of invocations *)

Section Effects.
Context `{Collaborators World Image MarkSeed} (this : Capturer).
Implicit Types (s t : state World Image MarkSeed) (job : Job MarkSeed)
  (options : Options MarkSeed) (m : Scheduler.Machine World Image MarkSeed)
  (q : AsyncQueue.t).
Import Scheduler.






Lemma finish_set_queue job data q s :
  Capturer.finish this job data (set_queue q s) =
  ((Capturer.finish this job data s).1,
   set_queue q (Capturer.finish this job data s).2).
Proof. unfold Capturer.finish. unfold_monad. exec; reflexivity. Qed.

Lemma complete_set_queue job q s :
  complete this job (set_queue q s) = set_queue q (complete this job s).
Proof.
  unfold complete. rewrite pipeline_set_queue.
  destruct (Capturer.pipeline this job s) as [[data|e] s1]; simpl; [|done].
  by rewrite finish_set_queue.
Qed.

Lemma complete_frame job s :
  pathPattern_data (complete this job s) = pathPattern_data s ∧
  warningLog (complete this job s) = warningLog s ∧
  queue (complete this job s) = queue s.
Proof.
  unfold complete.
  pose proof (pipeline_frame this job s) as (Hd & _ & Hw & Hq & _).
  destruct (Capturer.pipeline this job s) as [[data|e] s1]; simpl in *; [|done].
  pose proof (finish_frame this job data s1) as (Hq' & Hd' & Hw' & _).
  simpl in *. by rewrite Hq', Hd', Hw', Hq, Hd, Hw.
Qed.



Lemma run_jobs_frame js : ∀ s,
  pathPattern_data (run_jobs this js s) = pathPattern_data s.
Proof.
  induction js as [|job js IH]; intros s; simpl; [done|].
  rewrite IH. apply complete_frame.
Qed.



Lemma resolved_app requests1 requests2 : ∀ s,
  resolved this (requests1 ++ requests2) s =
  resolved this requests1 s
  ++ resolved this requests2 (resolve_all this requests1 s).
Proof.
  induction requests1 as [|request requests1 IH]; intros s; simpl; [done|].
  destruct (Capturer.resolve this request.1 request.2 s) as [[job|e] s1];
    simpl; by rewrite IH.
Qed.

Lemma resolve_all_app requests1 requests2 s :
  resolve_all this (requests1 ++ requests2) s =
  resolve_all this requests2 (resolve_all this requests1 s).
Proof. apply foldl_app. Qed.








End Effects.

Section EffectsOfSchedules.
Context `{Collaborators World Image MarkSeed} (this : Capturer).
Implicit Types (s t : state World Image MarkSeed) (job : Job MarkSeed)
  (options : Options MarkSeed) (m : Scheduler.Machine World Image MarkSeed)
  (q : AsyncQueue.t).
Import Scheduler.





End EffectsOfSchedules.

Section OnlySchedule.
Context `{Collaborators World Image MarkSeed} (this : Capturer).
Implicit Types (s t : state World Image MarkSeed) (job : Job MarkSeed)
  (options : Options MarkSeed) (m : Scheduler.Machine World Image MarkSeed)
  (q : AsyncQueue.t).
Import Scheduler.


End OnlySchedule.

Section SameDestination.
Context `{Collaborators World Image MarkSeed} (this : Capturer).
Implicit Types (s t : state World Image MarkSeed) (job : Job MarkSeed)
  (options : Options MarkSeed) (m : Scheduler.Machine World Image MarkSeed)
  (q : AsyncQueue.t).
Import Scheduler.


End SameDestination.

(** ** The properties on the concrete world *)



(** One capture, and an interleaving of two action captures and one error
    capture. *)
Lemma counters_advance_once_witness :
  Scheduler.run (Demo.capturer false) Demo.interleaved
    (Scheduler.boot (Demo.initial Demo.Working)) = Some Demo.interleaved_end ∧
  fileIndex (pathPattern_data Demo.plain_run.2) = 1 + 1 ∧
  errorFileIndex (pathPattern_data Demo.plain_run.2) = 1 ∧
  fileIndex (pathPattern_data (Scheduler.mstate Demo.interleaved_end)) = 1 + 2 ∧
  errorFileIndex (pathPattern_data (Scheduler.mstate Demo.interleaved_end)) = 1 + 1.
Proof.
  assert (Scheduler.run (Demo.capturer false) Demo.interleaved
            (Scheduler.boot (Demo.initial Demo.Working))
          = Some Demo.interleaved_end) as Hrun by (vm_compute; reflexivity).
  split; [exact Hrun|].
  destruct (counters_advance_once (Demo.capturer false) false no_options
              (Demo.initial Demo.Working) Demo.interleaved
              (Scheduler.boot (Demo.initial Demo.Working)) Demo.interleaved_end
              eq_refl eq_refl ltac:(repeat constructor) Hrun)
    as [[Hf He] [Hfs Hes]].
  split; [exact Hf|]. split; [exact He|]. split; [exact Hfs | exact Hes].
Defined.

(** A browser that produces no file. *)
Lemma capture_without_staged_file_witness :
  enabled (Demo.capturer false) = true ∧
  staged "/tmp/1.png" (world (Demo.initial Demo.Silent)) = false ∧
  Demo.silent_run.1 = Returned (Some "/shots/1.png") ∧
  forallb
    (λ c, negb (is_cropScreenshot c || is_writePng c || is_makeDir c
                || is_writeFile c || is_generateThumbnail c))
    (new_calls (Demo.initial Demo.Silent) Demo.silent_run.2) = true ∧
  screenshotData <$> testEntry_screenshots Demo.silent_run.2 = [None].
Proof.
  split; [reflexivity|]. split; [reflexivity|].
  pose proof (capture_without_staged_file (Demo.capturer false) false no_options
                (Demo.initial Demo.Silent) Demo.first_job
                (Demo.resolved Demo.Silent) {| id := "run-1" |}
                (world (Demo.initial Demo.Silent))
                eq_refl eq_refl eq_refl eq_refl eq_refl) as Hc.
  change (Capturer._capture (Demo.capturer false) false no_options
            (Demo.initial Demo.Silent)) with Demo.silent_run in Hc.
  destruct Demo.silent_run as [r s'].
  destruct Hc as (Hr & _ & Hnone & record & Hshots & _ & Hdata).
  split; [exact Hr|]. split; [exact Hnone|].
  simpl. rewrite Hshots. simpl. by rewrite Hdata.
Defined.


(** C3, as stated, fails: the raw capture creates no file, yet a file that
    an earlier capture of the same name left at the staging path is found;
    the cropper, the final write and the thumbnail generator are invoked, and
    the record carries the old bytes.  And when the raw capture rejects
    (creating nothing), no path is returned. *)
Lemma stale_staged_file_is_published :
  enabled (Demo.capturer false) = true ∧
  provider_takeScreenshot "chrome" "/tmp/shot.png" None None false
    (world Cases.stale) = (Returned tt, world Cases.stale) ∧
  Cases.stale_run.1 = Returned (Some "/shots/shot.png") ∧
  existsb is_cropScreenshot (new_calls Cases.stale Cases.stale_run.2) = true ∧
  existsb is_writeFile (new_calls Cases.stale Cases.stale_run.2) = true ∧
  existsb is_generateThumbnail (new_calls Cases.stale Cases.stale_run.2)
    = true ∧
  screenshotData <$> last (testEntry_screenshots Cases.stale_run.2)
    = Some (Some Demo.shot) ∧
  staged "/tmp/1.png" (world Demo.broken_run.2) = false ∧
  Demo.broken_run.1 = Thrown (Rejected "the browser does not respond").
Proof. vm_compute. done. Qed.


(** C5, as stated, fails: with a browser that does not respond the invocation
    of an enabled capturer throws, and no record is appended. *)
Lemma enabled_capture_appends_nothing :
  enabled (Demo.capturer false) = true ∧
  Demo.broken_run.1 = Thrown (Rejected "the browser does not respond") ∧
  testEntry_screenshots Demo.broken_run.2
    = testEntry_screenshots (Demo.initial Demo.Broken).
Proof. vm_compute. done. Qed.

(** C6, as stated, fails: a request without crop rectangle and without marker
    seed still has the cropper invoked once the staged file exists. *)
Lemma cropper_invoked_without_request :
  enabled (Demo.capturer false) = true ∧
  cropDimensions (no_options (MarkSeed:=Demo.MarkSeed)) = None ∧
  markSeed (no_options (MarkSeed:=Demo.MarkSeed)) = None ∧
  new_calls (Demo.initial Demo.Working) Demo.plain_run.2 !! 3%nat =
    Some (call_cropScreenshot Demo.shot
            {| crop_markSeed := None; crop_clientAreaDimensions := None;
               crop_path := "/tmp/1.png"; crop_cropDimensions := None |}
            (Returned None)).
Proof. vm_compute. done. Qed.

(** A capture with a crop rectangle: check, decoding, cropper. *)
Lemma cropper_invoked_on_staged_file_witness :
  new_calls (Demo.initial Demo.Working) Demo.cropped_run.2 !! 1%nat =
    Some (call_stat "/tmp/1.png" (Returned {| isFile := true |})) ∧
  ∃ decoded,
    new_calls (Demo.initial Demo.Working) Demo.cropped_run.2 !! 2%nat =
      Some (call_readPngFile "/tmp/1.png" decoded) ∧
    match decoded with
    | Thrown _ => False
    | Returned image =>
        ∃ result,
          new_calls (Demo.initial Demo.Working) Demo.cropped_run.2 !! 3%nat =
            Some (call_cropScreenshot image
                    {| crop_markSeed := None;
                       crop_clientAreaDimensions :=
                         Some {| width := 1513; height := 1152 |};
                       crop_path := "/tmp/1.png";
                       crop_cropDimensions :=
                         Some {| scaled_top := 2; scaled_left := 1;
                                 scaled_bottom := 4; scaled_right := 16 |} |}
                    result)
    end.
Proof.
  assert (new_calls (Demo.initial Demo.Working) Demo.cropped_run.2 !! 1%nat =
            Some (call_stat "/tmp/1.png" (Returned {| isFile := true |})))
    as Hstat by (vm_compute; reflexivity).
  split; [exact Hstat|].
  destruct (cropper_invoked_on_staged_file (Demo.capturer false) false
              (Demo.with_crop (Some Demo.rectangle) (Some Demo.page))
              (Demo.initial Demo.Working) 1%nat "/tmp/1.png"
              {| isFile := true |} Hstat eq_refl)
    as (decoded & Hread & Hrest).
  exists decoded. split; [exact Hread|].
  destruct decoded as [image|e].
  - destruct Hrest as (result & Hcrop & _). exists result. exact Hcrop.
  - vm_compute in Hread. discriminate Hread.
Defined.

(** The client area of a page with the device pixel ratio 1.2: the
    products are 1200 and 840, where the exact products of the Numbers
    are just below. *)
Lemma client_area_dimensions_witness :
  Binary64.finite (dpr Cases.scaled_page * 1000) ∧
  Binary64.finite (dpr Cases.scaled_page * 700) ∧
  ∃ area,
    Capturer._getClientAreaDimensions (Some Cases.scaled_page) = Some area ∧
    area = {| width := 1200; height := 840 |} ∧
    floor_of_product (dpr Cases.scaled_page) 1000 (width area) ∧
    floor_of_product (dpr Cases.scaled_page) 700 (height area) ∧
    JS.Math_floor (dpr Cases.scaled_page * 1000) = 1199 ∧
    JS.Math_floor (dpr Cases.scaled_page * 700) = 839.
Proof.
  assert (Binary64.finite (dpr Cases.scaled_page * 1000)) as Hw
    by (vm_compute; reflexivity).
  assert (Binary64.finite (dpr Cases.scaled_page * 700)) as Hh
    by (vm_compute; reflexivity).
  split; [exact Hw|]. split; [exact Hh|].
  destruct (client_area_dimensions Cases.scaled_page)
    as (area & Harea & Hwidth & Hheight & _).
  exists area. split; [exact Harea|].
  split; [vm_compute in Harea; by injection Harea as <-|].
  split; [exact Hwidth|]. split; [exact Hheight|].
  split; vm_compute; reflexivity.
Defined.

(** Edges that round up, tie and round down; the first is 2 where the exact
    product of the Numbers 1.2 and 1.25 would round to 1. *)
Lemma crop_rectangle_scaled_witness :
  ∃ scaled,
    Capturer._getCropDimensions (Some Cases.fine_rectangle)
      (Some Cases.fine_page) = Some scaled ∧
    scaled = {| scaled_top := 2; scaled_left := 3;
                scaled_bottom := 6; scaled_right := 13 |} ∧
    round_of_product (top Cases.fine_rectangle) (dpr Cases.fine_page)
      (scaled_top scaled) ∧
    round_of_product (left Cases.fine_rectangle) (dpr Cases.fine_page)
      (scaled_left scaled) ∧
    round_of_product (bottom Cases.fine_rectangle) (dpr Cases.fine_page)
      (scaled_bottom scaled) ∧
    round_of_product (right Cases.fine_rectangle) (dpr Cases.fine_page)
      (scaled_right scaled) ∧
    JS.Math_round (top Cases.fine_rectangle * dpr Cases.fine_page) = 1.
Proof.
  assert (∃ image cropOptions result,
            new_calls (Demo.initial Demo.Working) Cases.fine_run.2 !! 3%nat
            = Some (call_cropScreenshot image cropOptions result))
    as (image & cropOptions & result & Hcall)
    by (eexists _, _, _; vm_compute; reflexivity).
  destruct (crop_rectangle_scaled (Demo.capturer false) false
              (Demo.with_crop (Some Cases.fine_rectangle)
                 (Some Cases.fine_page))
              (Demo.initial Demo.Working) Cases.fine_rectangle
              Cases.fine_page image cropOptions result eq_refl eq_refl)
    as (scaled & _ & Hscaled & Hedges).
  - exact (list_elem_of_lookup_2 _ 3%nat _ Hcall).
  - exists scaled. split; [exact Hscaled|].
    split; [vm_compute in Hscaled; by injection Hscaled as <-|].
    destruct Hedges as (Ht & Hl & Hb & Hr).
    split; [exact Ht|]. split; [exact Hl|]. split; [exact Hb|].
    split; [exact Hr|]. vm_compute. reflexivity.
Defined.

(** A rectangle without the page geometry. *)
Lemma crop_rectangle_dropped_witness :
  cropDimensions (Demo.with_crop (Some Demo.rectangle) None)
    = Some Demo.rectangle ∧
  pageDimensions (Demo.with_crop (Some Demo.rectangle) None) = None ∧
  Capturer._getCropDimensions (Some Demo.rectangle) None = None ∧
  Demo.blind_crop_run.1 = Returned (Some "/shots/1.png").
Proof.
  split; [reflexivity|]. split; [reflexivity|].
  destruct (crop_rectangle_dropped (Demo.capturer false) false
              (Demo.with_crop (Some Demo.rectangle) None)
              (Demo.initial Demo.Working) Demo.shot
              {| crop_markSeed := None; crop_clientAreaDimensions := None;
                 crop_path := "/tmp/1.png"; crop_cropDimensions := None |}
              (Returned None) (or_intror eq_refl))
    as [Hnull _].
  - apply (list_elem_of_lookup_2 _ 3%nat). vm_compute. reflexivity.
  - split; [exact Hnull|]. vm_compute. reflexivity.
Defined.

(** The explicit name [shot]. *)
Lemma explicit_path_resolution_witness :
  baseScreenshotsPath (Demo.capturer false) = Some "/shots" ∧
  customPath (Demo.with_customPath "shot") = Some "shot" ∧
  hasImageExtension "shot" = false ∧
  Demo.named_run.1 = Returned (Some "/shots/shot.png") ∧
  fileIndex (pathPattern_data Demo.named_run.2) = 1 ∧
  errorFileIndex (pathPattern_data Demo.named_run.2) = 1.
Proof.
  split; [reflexivity|]. split; [reflexivity|]. split; [reflexivity|].
  pose proof (explicit_path_resolution (Demo.capturer false) false
                (Demo.with_customPath "shot") (Demo.initial Demo.Working)
                "/shots" "shot" eq_refl ltac:(discriminate) eq_refl
                ltac:(discriminate)) as Hc.
  change (Capturer._capture (Demo.capturer false) false
            (Demo.with_customPath "shot") (Demo.initial Demo.Working))
    with Demo.named_run in Hc.
  assert (∃ returned, Demo.named_run.1 = Returned returned) as [returned Hret]
    by (eexists; vm_compute; reflexivity).
  destruct Demo.named_run as [r s'].
  destruct Hc as (Hf & He & _ & Hr). simpl in *.
  split; [by rewrite Hret, (Hr _ Hret)|]. split; [exact Hf | exact He].
Defined.

(** ** Worked examples *)

(** Products of Numbers: the literal 1.2 is not 6/5, its product with 1.25
    is 1.5 and its product with 1000 is 1200; beyond [2^53] a tie goes to
    the even significand; and the midpoint between the largest Number and
    [2^1024] overflows. *)
Example binary64_products :
  Qeq_bool (JS.number (6 # 5)) (5404319552844595 # 4503599627370496) = true ∧
  Qeq_bool (JS.mul (JS.number (6 # 5)) (5 # 4)) (3 # 2) = true ∧
  Qeq_bool (JS.mul 1000 (JS.number (6 # 5))) 1200 = true ∧
  Qeq_bool (Binary64.round (inject_Z (2 ^ 53 + 1))) (inject_Z (2 ^ 53))
    = true ∧
  Qeq_bool (Binary64.round (inject_Z (2 ^ 53 + 3))) (inject_Z (2 ^ 53 + 4))
    = true ∧
  Qeq_bool (Binary64.round (Binary64.pow2 (-1075))) 0 = true ∧
  Qeq_bool
    (Binary64.round (Binary64.pow2 1024 - Binary64.pow2 970 - Binary64.pow2 900))
    (Binary64.pow2 1024 - Binary64.pow2 971) = true ∧
  Qeq_bool (Binary64.round (Binary64.pow2 1024 - Binary64.pow2 970))
    (Binary64.pow2 1024) = true.
Proof. vm_compute. done. Qed.

(** Ties and non-ties of [Math.round], rounding up and down. *)
Example Math_round_examples :
  JS.Math_round (5 # 2) = 3 ∧ JS.Math_round (-5 # 2) = -2 ∧
  JS.Math_round (6 # 5) = 1 ∧ JS.Math_round (15 # 4) = 4.
Proof. vm_compute. done. Qed.

(** The dimension rule where two of the three values are equal. *)
Example dimension_boundaries :
  Capturer._getDimensionWithoutScrollbar 1024 1024 1009 = 1024%Q ∧
  Capturer._getDimensionWithoutScrollbar 1024 1009 1024 = 1024%Q ∧
  Capturer._getDimensionWithoutScrollbar 1024 1009 1009 = 1009%Q ∧
  Capturer._getDimensionWithoutScrollbar 1024 2000 1025 = 2000%Q ∧
  Capturer._getDimensionWithoutScrollbar 1024 1025 1009 = 1009%Q.
Proof. vm_compute. done. Qed.

Example client_area_of_page :
  Capturer._getClientAreaDimensions (Some Demo.page)
    = Some {| width := 1513; height := 1152 |}.
Proof. vm_compute. reflexivity. Qed.

(** Only the first occurrence of the base directory is replaced. *)
Example staging_path :
  JS.replace "/shots/a/shots/1.png" "/shots" "/tmp" = "/tmp/a/shots/1.png".
Proof. reflexivity. Qed.

(** A working capture publishes the file and its thumbnail; the staged file
    stays where it is. *)
Example plain_run_files :
  Demo.plain_run.1 = Returned (Some "/shots/1.png") ∧
  Demo.disk (world Demo.plain_run.2) !! "/shots/1.png"
    = Some (Demo.File Demo.shot) ∧
  Demo.disk (world Demo.plain_run.2) !! "/shots/thumbnails/1.png"
    = Some (Demo.File (take 2 Demo.shot)) ∧
  Demo.disk (world Demo.plain_run.2) !! "/tmp/1.png"
    = Some (Demo.File Demo.shot).
Proof. vm_compute. done. Qed.

(** A failure capture kept in memory leaves the destination untouched. *)
Example unpublished_run_files :
  Demo.disk (world Demo.unpublished_run.2) !! "/shots/errors/1.png" = None ∧
  Demo.disk (world Demo.unpublished_run.2) !! "/tmp/errors/1.png"
    = Some (Demo.File Demo.shot).
Proof. vm_compute. done. Qed.

(** A disabled capturer does nothing at all. *)
Example disabled_run :
  Capturer._capture Demo.disabled_capturer false
    (no_options (MarkSeed:=Demo.MarkSeed)) (Demo.initial Demo.Working)
  = (Returned None, Demo.initial Demo.Working).
Proof. reflexivity. Qed.

(** The serial reading of a trace rejects two operations of a key in flight
    together, and an operation that overtakes an older one. *)
Example serial_scan_rejects :
  Scheduler.serial_scan "k"
    [Scheduler.Queued "k" 0; Scheduler.Queued "k" 1;
     Scheduler.Started "k" 0; Scheduler.Started "k" 1]%nat = None ∧
  Scheduler.serial_scan "k"
    [Scheduler.Queued "k" 0; Scheduler.Queued "k" 1;
     Scheduler.Started "k" 1]%nat = None ∧
  Scheduler.serial_scan "k"
    [Scheduler.Queued "k" 0; Scheduler.Queued "j" 1;
     Scheduler.Started "k" 0; Scheduler.Started "j" 1;
     Scheduler.Finished "j" 1; Scheduler.Finished "k" 0]%nat
    = Some (None, []).
Proof. vm_compute. done. Qed.

(** * Further properties *)

(** ** The pipeline, call by call *)

Section Pipeline.
Context `{Collaborators World Image MarkSeed} (this : Capturer).
Implicit Types (s : state World Image MarkSeed) (job : Job MarkSeed)
  (options : Options MarkSeed).

(** The raw capture is the first call of a pipeline. *)
Lemma pipeline_first_call job s :
  ∃ result,
    head (new_calls s (Capturer.pipeline this job s).2) =
      Some (call_takeScreenshot (browserId this) (job_tempPath job)
              (width <$> Capturer._getClientAreaDimensions
                           (pageDimensions (job_options job)))
              (height <$> Capturer._getClientAreaDimensions
                            (pageDimensions (job_options job)))
              (default (fullPage this) (opt_fullPage (job_options job)))
              result).
Proof. unfold_pipeline. exec; tidy_log; eauto. Qed.

(** Every path handed to a collaborator is in the footprint of the job. *)
Lemma pipeline_footprint job s :
  Forall (call_in_footprint job)
    (new_calls s (Capturer.pipeline this job s).2).
Proof.
  unfold_pipeline. exec; tidy_log; repeat constructor; done.
Qed.

(** A pipeline throws exactly when its last call is a call other than the
    check of the staged file that rejected, and it throws what that call
    rejected with. *)
Lemma pipeline_throws job s e :
  (Capturer.pipeline this job s).1 = Thrown e ↔
  ∃ c,
    last (new_calls s (Capturer.pipeline this job s).2) = Some c ∧
    is_stat c = false ∧ call_rejection c = Some e.
Proof.
  unfold_pipeline. exec; tidy_log.
  all: split; [intros Hr | intros (c & Hc & Hs & Hr)]; simplify_eq/=; eauto.
Qed.

(** Nothing is called after a call that rejected. *)
Lemma pipeline_stops job s i c e :
  new_calls s (Capturer.pipeline this job s).2 !! i = Some c →
  call_rejection c = Some e →
  S i = length (new_calls s (Capturer.pipeline this job s).2).
Proof.
  unfold_pipeline. exec; tidy_log; intros Hi Hr.
  all: do 12 (try (destruct i as [|i]; simplify_eq/=)); done.
Qed.

(** The final write: what it writes, where, and what precedes it. *)
Lemma pipeline_writeFile job s k path data written :
  new_calls s (Capturer.pipeline this job s).2 !! k
    = Some (call_writeFile path data written) →
  path = job_screenshotPath job ∧
  job_forError job && autoTakeOnFails this = false ∧
  ∃ i,
    k = S (S i) ∧
    new_calls s (Capturer.pipeline this job s).2 !! i
      = Some (call_readFile (job_tempPath job) (Returned data)) ∧
    new_calls s (Capturer.pipeline this job s).2 !! S i
      = Some (call_makeDir (dirname path) (Returned tt)).
Proof.
  unfold_pipeline. exec; tidy_log; intros Hk.
  all: do 12 (try (destruct k as [|k]; simplify_eq/=)).
  all: split; [done|]; split; [done|]; eexists; split; [reflexivity|];
    split; try done.
  all: by repeat match goal with u : unit |- _ => destruct u end.
Qed.

(** A pipeline that publishes returns the bytes it has written. *)
Lemma pipeline_published job s data :
  (Capturer.pipeline this job s).1 = Returned (Some data) →
  job_forError job && autoTakeOnFails this = false →
  call_writeFile (job_screenshotPath job) data (Returned tt)
    ∈ new_calls s (Capturer.pipeline this job s).2.
Proof.
  unfold_pipeline. exec; tidy_log; intros Hr Hpub; simplify_eq/=.
  all: repeat match goal with u : unit |- _ => destruct u end.
  all: set_solver.
Qed.

(** The thumbnail follows a final write that resolved, when asked for. *)
Lemma pipeline_thumbnail job s k path data :
  new_calls s (Capturer.pipeline this job s).2 !! k
    = Some (call_writeFile path data (Returned tt)) →
  if job_thumbnails job then
    ∃ result,
      new_calls s (Capturer.pipeline this job s).2 !! S k
        = Some (call_generateThumbnail path (job_thumbnailPath job) result) ∧
      new_calls s (Capturer.pipeline this job s).2 !! S (S k) = None
  else new_calls s (Capturer.pipeline this job s).2 !! S k = None.
Proof.
  unfold_pipeline. exec; tidy_log; intros Hk.
  all: do 12 (try (destruct k as [|k]; simplify_eq/=)); eauto.
Qed.

Lemma pipeline_thumbnail_only job s k source destination result :
  new_calls s (Capturer.pipeline this job s).2 !! k
    = Some (call_generateThumbnail source destination result) →
  job_thumbnails job = true ∧
  ∃ i data,
    k = S i ∧
    new_calls s (Capturer.pipeline this job s).2 !! i
      = Some (call_writeFile source data (Returned tt)).
Proof.
  unfold_pipeline. exec; tidy_log; intros Hk.
  all: do 12 (try (destruct k as [|k]; simplify_eq/=)).
  all: split; [done|]; eexists _, _; split; [reflexivity|].
  all: by repeat match goal with u : unit |- _ => destruct u end.
Qed.

End Pipeline.

(** ** One invocation, further *)

Section Further.
Context `{Collaborators World Image MarkSeed} (this : Capturer).
Implicit Types (s : state World Image MarkSeed) (job : Job MarkSeed)
  (options : Options MarkSeed).

(** X1.  [_capture] returns null exactly when the capturer is disabled, and
    a capturer is enabled exactly when it was given a base directory that is
    not the empty string: an enabled capturer returns a path or throws. *)
Theorem capture_null_iff_disabled forError options s :
  ((Capturer._capture this forError options s).1 = Returned None
   ↔ enabled this = false) ∧
  (enabled this = true
   ↔ ∃ base, baseScreenshotsPath this = Some base ∧ base ≠ "").
Proof.
  split.
  - destruct (capture_cases this forError options s)
      as [[Hen ->]|(Hen & job & s1 & Hres & Hc)]; [done|].
    simpl in Hc. destruct (Capturer._capture this forError options s) as [r s'].
    destruct Hc as (-> & _). simpl. rewrite Hen.
    destruct (Capturer.pipeline this job s1).1;
      [destruct (testEntry_testRuns this !! browserId this)|]; done.
  - unfold enabled. destruct (baseScreenshotsPath this) as [base|]; simpl.
    + rewrite negb_true_iff, String.eqb_neq. split.
      * intros Hne. by exists base.
      * by intros (base' & [= <-] & Hne).
    + split; [done|]. by intros (base & ? & _).
Qed.

(** X3.  Without an explicit path the destination is rendered from the
    pattern data as they are when the invocation is made, before the counter
    is incremented: this is the path that is returned and recorded, and the
    data are left incremented for the next invocation. *)
Theorem generated_path_before_increment forError options s :
  enabled this = true →
  JS.truthy_string (customPath options) = false →
  ∃ base,
    baseScreenshotsPath this = Some base ∧
    let destination :=
      joinPath [base; pathPattern_getPath (pathPattern_data s) forError] in
    let (r, s') := Capturer._capture this forError options s in
    pathPattern_data s' = incremented forError (pathPattern_data s) ∧
    (∀ returned, r = Returned returned → returned = Some destination) ∧
    (∀ record,
       testEntry_screenshots s' = testEntry_screenshots s ++ [record] →
       screenshotPath record = destination).
Proof.
  intros Hen Hnone.
  destruct (capture_cases this forError options s)
    as [[Hoff _]|(_ & job & s1 & Hres & Hc)]; [congruence|].
  destruct (resolve_generated this _ _ _ _ _ Hnone Hres)
    as (Hf & He & Hua & Hq & base & Hbase & Hdest).
  exists base. split; [done|]. simpl in *.
  destruct (Capturer._capture this forError options s) as [r s'].
  destruct Hc as (-> & Hshots & Hd & _). split; [|split].
  - rewrite Hd. unfold incremented.
    destruct (pathPattern_data s1), (pathPattern_data s), forError;
      simpl in *; f_equal; first [lia | done].
  - intros returned Hret.
    destruct (Capturer.pipeline this job s1).1;
      [destruct (testEntry_testRuns this !! browserId this)|];
      simplify_eq. by rewrite Hdest.
  - intros record Hrec. rewrite Hshots in Hrec.
    apply app_inv_head in Hrec.
    destruct (Capturer.pipeline this job s1).1;
      [destruct (testEntry_testRuns this !! browserId this)|];
      simplify_eq/=. done.
Qed.

(** X6.  Every invocation of an enabled capturer begins with the raw
    capture: it is asked for the staging path, with the client area of the
    request (both dimensions, or neither) and with the full-page flag of the
    request, or that of the capturer when the request has none. *)
Theorem raw_capture_first forError options s :
  enabled this = true →
  ∃ job s1 result,
    Capturer.resolve this forError options s = (Returned job, s1) ∧
    head (new_calls s (Capturer._capture this forError options s).2) =
      Some (call_takeScreenshot (browserId this) (job_tempPath job)
              (width <$> Capturer._getClientAreaDimensions
                           (pageDimensions options))
              (height <$> Capturer._getClientAreaDimensions
                            (pageDimensions options))
              (match opt_fullPage options with
               | Some flag => flag
               | None => fullPage this
               end)
              result).
Proof.
  intros Hen.
  destruct (capture_cases this forError options s)
    as [[Hoff _]|(_ & job & s1 & Hres & Hc)]; [congruence|].
  destruct (resolve_job this _ _ _ _ _ Hres) as (_ & Hopt & _).
  destruct (pipeline_first_call this job s1) as [result Hhead].
  exists job, s1, result. split; [done|]. simpl in Hc.
  destruct (Capturer._capture this forError options s) as [r s'].
  destruct Hc as (_ & _ & _ & _ & _ & Hcalls). simpl.
  rewrite Hcalls, Hhead, Hopt. by destruct (opt_fullPage options).
Qed.

(** X8.  With the test run of the browser registered, an invocation throws
    exactly when its last collaborator call is one other than the check of
    the staged file and rejected, and it throws what that call rejected with;
    and no collaborator is called after one that rejected (a rejected check
    ends the pipeline without an error). *)
Theorem rejection_propagates forError options s run :
  testEntry_testRuns this !! browserId this = Some run →
  let (r, s') := Capturer._capture this forError options s in
  (∀ e,
     r = Thrown e ↔
     ∃ c, last (new_calls s s') = Some c ∧
          is_stat c = false ∧ call_rejection c = Some e) ∧
  (∀ i c e,
     new_calls s s' !! i = Some c →
     call_rejection c = Some e →
     S i = length (new_calls s s')).
Proof.
  intros Hrun.
  destruct (capture_cases this forError options s)
    as [[_ ->]|(_ & job & s1 & Hres & Hc)].
  - rewrite new_calls_same. split.
    + intros e. split; [done|]. by intros (c & ? & _).
    + intros i c e Hi. done.
  - simpl in Hc. rewrite Hrun in Hc.
    destruct (Capturer._capture this forError options s) as [r s'].
    destruct Hc as (-> & _ & _ & _ & _ & ->). split.
    + intros e. rewrite <- pipeline_throws.
      destruct (Capturer.pipeline this job s1).1; split; congruence.
    + intros i c e. apply pipeline_stops.
Qed.

(** X9.  The final write goes to the destination, after the read-back of the
    staging file and the creation of the directory of the destination, and
    it writes the bytes that were read back; it is not made by a failure
    capture that is kept in memory.  And an invocation that returns with a
    payload, unless it is such a failure capture, has written that payload to
    its destination. *)
Theorem published_bytes forError options s :
  let (r, s') := Capturer._capture this forError options s in
  (∀ k path data written,
     new_calls s s' !! k = Some (call_writeFile path data written) →
     forError && autoTakeOnFails this = false ∧
     ∃ job s1 i,
       Capturer.resolve this forError options s = (Returned job, s1) ∧
       path = job_screenshotPath job ∧
       k = S (S i) ∧
       new_calls s s' !! i
         = Some (call_readFile (job_tempPath job) (Returned data)) ∧
       new_calls s s' !! S i
         = Some (call_makeDir (dirname path) (Returned tt))) ∧
  (∀ record data,
     testEntry_screenshots s' = testEntry_screenshots s ++ [record] →
     screenshotData record = Some data →
     forError && autoTakeOnFails this = false →
     call_writeFile (screenshotPath record) data (Returned tt)
       ∈ new_calls s s').
Proof.
  destruct (capture_cases this forError options s)
    as [[_ ->]|(_ & job & s1 & Hres & Hc)].
  - rewrite new_calls_same. split.
    + intros k path data written Hk. done.
    + intros record data Hrec. symmetry in Hrec.
      rewrite <- (app_nil_r (testEntry_screenshots s)) in Hrec at 2.
      by apply app_inv_head in Hrec.
  - destruct (resolve_job this _ _ _ _ _ Hres) as (Hfail & _).
    simpl in Hc. destruct (Capturer._capture this forError options s) as [r s'].
    destruct Hc as (_ & Hshots & _ & _ & _ & ->). split.
    + intros k path data written Hk.
      destruct (pipeline_writeFile this job s1 k path data written Hk)
        as (Hpath & Hpub & i & Hki & Hread & Hmk).
      rewrite Hfail in Hpub. split; [done|]. by exists job, s1, i.
    + intros record data Hrec Hdata Hpub. rewrite Hshots in Hrec.
      apply app_inv_head in Hrec. rewrite <- Hfail in Hpub. clear Hfail.
      destruct (Capturer.pipeline this job s1).1 as [payload|e] eqn:Hpr;
        [destruct (testEntry_testRuns this !! browserId this)|];
        simplify_eq/=.
      by apply pipeline_published.
Qed.

(** X10.  The thumbnail is asked for exactly after a final write that
    resolved, when the request asks for thumbnails or, the request being
    silent, the capturer does: it is generated from the destination into the
    thumbnail path of the destination, and it is the last call. *)
Theorem thumbnail_when_asked forError options s :
  let log := new_calls s (Capturer._capture this forError options s).2 in
  let asked :=
    match opt_thumbnails options with
    | Some flag => flag
    | None => thumbnails this
    end in
  (∀ k path data,
     log !! k = Some (call_writeFile path data (Returned tt)) →
     if asked then
       ∃ result,
         log !! S k
           = Some (call_generateThumbnail path
                     (Capturer._getThumbnailPath path) result) ∧
         log !! S (S k) = None
     else log !! S k = None) ∧
  (∀ k source destination result,
     log !! k = Some (call_generateThumbnail source destination result) →
     asked = true ∧
     ∃ i data,
       k = S i ∧ log !! i = Some (call_writeFile source data (Returned tt))).
Proof.
  intros log asked. subst log asked.
  destruct (capture_log this forError options s)
    as [Hnil|(job & s1 & Hres & Hlog)].
  { rewrite Hnil. split; intros; done. }
  rewrite Hlog.
  destruct (resolve_job this _ _ _ _ _ Hres) as (_ & _ & Hth & Hthp & _).
  assert (job_thumbnails job =
            match opt_thumbnails options with
            | Some flag => flag
            | None => thumbnails this
            end) as Hasked
    by (rewrite Hth; by destruct (opt_thumbnails options)).
  rewrite <- Hasked. split.
  - intros k path data Hk.
    pose proof (pipeline_thumbnail this job s1 k path data Hk) as Hnext.
    destruct (pipeline_writeFile this job s1 k path data _ Hk) as (-> & _).
    by rewrite <- Hthp.
  - intros k source destination result.
    apply pipeline_thumbnail_only.
Qed.

End Further.

Section Outcome.
Context `{Collaborators World Image MarkSeed} (this : Capturer).
Implicit Types (s : state World Image MarkSeed) (job : Job MarkSeed)
  (options : Options MarkSeed).

(** The pipeline reads four fields of the request, and the record none. *)
Lemma pipeline_request job job' s :
  job_forError job = job_forError job' →
  job_thumbnails job = job_thumbnails job' →
  job_screenshotPath job = job_screenshotPath job' →
  job_thumbnailPath job = job_thumbnailPath job' →
  job_tempPath job = job_tempPath job' →
  pageDimensions (job_options job) = pageDimensions (job_options job') →
  cropDimensions (job_options job) = cropDimensions (job_options job') →
  markSeed (job_options job) = markSeed (job_options job') →
  opt_fullPage (job_options job) = opt_fullPage (job_options job') →
  Capturer.pipeline this job s = Capturer.pipeline this job' s.
Proof.
  intros H1 H2 H3 H4 H5 H6 H7 H8 H9. unfold Capturer.pipeline.
  by rewrite H1, H2, H3, H4, H5, H6, H7, H8, H9.
Qed.

(** X2.  An explicit path that is the empty string counts as no explicit
    path: the invocation returns what it returns, and leaves the state it
    leaves, without [customPath]. *)
Theorem empty_custom_path_ignored forError options s :
  customPath options = Some "" →
  Capturer._capture this forError options s
  = Capturer._capture this forError (set_customPath None options) s.
Proof.
  intros Hempty. unfold Capturer._capture.
  destruct (enabled this); simpl; [|done].
  rewrite !bind_eq.
  assert ((∃ job job' s1,
    Capturer.resolve this forError options s = (Returned job, s1) ∧
    Capturer.resolve this forError (set_customPath None options) s
      = (Returned job', s1) ∧
    job_forError job = job_forError job' ∧
    job_thumbnails job = job_thumbnails job' ∧
    job_screenshotPath job = job_screenshotPath job' ∧
    job_thumbnailPath job = job_thumbnailPath job' ∧
    job_tempPath job = job_tempPath job' ∧
    job_options job' = set_customPath None (job_options job))
    ∨ ∃ e s1,
        Capturer.resolve this forError options s = (Thrown e, s1) ∧
        Capturer.resolve this forError (set_customPath None options) s
          = (Thrown e, s1)) as Hsame.
  { unfold_resolve. rewrite Hempty. simpl. exec; eauto 12. }
  destruct Hsame as [(job & job' & s1 & -> & -> & H1 & H2 & H3 & H4 & H5 & Ho)
                    |(e & s1 & -> & ->)]; [|done].
  unfold Capturer.addToQueue, Capturer.finish. rewrite !bind_eq.
  unfold Capturer.queue_enqueue. rewrite <- H3.
  destruct (AsyncQueue.enqueue (job_screenshotPath job) (queue s1)) as [tk q].
  rewrite !bind_eq. unfold attempt.
  rewrite (pipeline_request job job') by (rewrite ?Ho; done).
  destruct (Capturer.pipeline this job' (set_queue q s1)) as [pr s2].
  by rewrite <- H1, <- H4.
Qed.

(** X14.  [autoTakeOnFails] is looked at by failure captures only: an
    action capture does the same whatever the flag. *)
Theorem action_capture_ignores_flag flag options s :
  Capturer.captureAction (set_autoTakeOnFails flag this) options s
  = Capturer.captureAction this options s.
Proof.
  unfold Capturer.captureAction, Capturer._capture.
  change (enabled (set_autoTakeOnFails flag this)) with (enabled this).
  destruct (enabled this); [|done]. cbn [negb].
  rewrite !bind_eq.
  change (Capturer.resolve (set_autoTakeOnFails flag this) false options s)
    with (Capturer.resolve this false options s).
  destruct (Capturer.resolve this false options s) as [[job|e] s1] eqn:Hres;
    [|done].
  apply resolve_job in Hres as (Herr & _).
  unfold Capturer.addToQueue. rewrite !bind_eq.
  destruct (Capturer.queue_enqueue (job_screenshotPath job) s1)
    as [[tk|e] s2]; [|done].
  rewrite !bind_eq. unfold attempt.
  assert (Capturer.pipeline (set_autoTakeOnFails flag this) job s2
          = Capturer.pipeline this job s2) as ->; [|done].
  unfold Capturer.pipeline. rewrite Herr. reflexivity.
Qed.

(** The payload the closure ends with was read from the staging path. *)
Lemma pipeline_payload job s data :
  (Capturer.pipeline this job s).1 = Returned (Some data) →
  call_readFile (job_tempPath job) (Returned data)
    ∈ new_calls s (Capturer.pipeline this job s).2.
Proof.
  unfold_pipeline. exec; tidy_log; intros Hr; simplify_eq/=.
  all: repeat match goal with u : unit |- _ => destruct u end.
  all: set_solver.
Qed.

Lemma resolve_incremented forError options s job s1 :
  JS.truthy_string (customPath options) = false →
  Capturer.resolve this forError options s = (Returned job, s1) →
  pathPattern_data s1 = incremented forError (pathPattern_data s).
Proof.
  intros Hnone Hres.
  destruct (resolve_generated this _ _ _ _ _ Hnone Hres)
    as (Hf & He & Hua & Hq & _).
  unfold incremented.
  destruct (pathPattern_data s1), (pathPattern_data s), forError;
    simpl in *; f_equal; first [lia | done].
Qed.

(** X11.  When an invocation returns a path, the test run of the browser is
    registered and the record list has grown by one record, appended at the
    end: it carries the id of that run, the returned path, the thumbnail path
    derived from it, the escaped user agent and the quarantine attempt of the
    pattern data, and the reason of the capture; its payload is what the
    read-back of the staged file returned, if there was one. *)
Theorem record_fields forError options s :
  let (r, s') := Capturer._capture this forError options s in
  ∀ path,
    r = Returned (Some path) →
    ∃ run data,
      testEntry_testRuns this !! browserId this = Some run ∧
      testEntry_screenshots s' =
        testEntry_screenshots s ++
        [{| testRunId := id run;
            screenshotPath := path;
            screenshotData := data;
            thumbnailPath := Capturer._getThumbnailPath path;
            userAgent :=
              escapeUserAgent
                (parsedUserAgent_prettyUserAgent (pathPattern_data s));
            screenshot_quarantineAttempt :=
              quarantineAttempt (pathPattern_data s);
            takenOnFail := forError |}] ∧
      ∀ bytes,
        data = Some bytes ↔
        ∃ staging, call_readFile staging (Returned bytes) ∈ new_calls s s'.
Proof.
  destruct (capture_cases this forError options s)
    as [[_ ->]|(_ & job & s1 & Hres & Hc)]; [done|].
  simpl in Hc.
  destruct (Capturer._capture this forError options s) as [r s'].
  destruct Hc as (-> & Hshots & _ & _ & _ & Hcalls).
  destruct (resolve_job this _ _ _ _ _ Hres) as (Herr & _ & _ & Hthumb & _).
  destruct (resolve_keeps_identity this _ _ _ _ _ Hres) as [Hua Hq].
  intros path Hpath. rewrite Hcalls.
  pose proof (pipeline_payload job s1) as Hpay.
  pose proof (pipeline_readback this job s1) as Hback.
  destruct (Capturer.pipeline this job s1).1 as [data|e]; [|done].
  destruct (testEntry_testRuns this !! browserId this) as [run|]; [|done].
  injection Hpath as <-. exists run, data. split; [done|]. split.
  - by rewrite Hshots, Herr, Hthumb, Hua, Hq.
  - intros bytes. split.
    + intros ->. eexists. by apply Hpay.
    + intros [staging Hin]. by destruct (Hback _ _ Hin) as [_ ->].
Qed.

(** X12.  When no test run is registered for the browser, an enabled
    capturer never returns and appends no record, yet the work was done
    before the failure: the raw capture was asked for, the counter of a
    generated path was incremented, and unless a collaborator rejected, what
    is thrown is the TypeError of the missing run. *)
Theorem missing_test_run forError options s :
  enabled this = true →
  testEntry_testRuns this !! browserId this = None →
  let (r, s') := Capturer._capture this forError options s in
  (∃ e, r = Thrown e) ∧
  testEntry_screenshots s' = testEntry_screenshots s ∧
  new_calls s s' ≠ [] ∧
  ((∀ c, c ∈ new_calls s s' → is_stat c = false → call_rejection c = None) →
   r = Thrown TypeError) ∧
  (JS.truthy_string (customPath options) = false →
   pathPattern_data s' = incremented forError (pathPattern_data s)).
Proof.
  intros Hen Hrun.
  destruct (capture_cases this forError options s)
    as [[Hoff _]|(_ & job & s1 & Hres & Hc)]; [congruence|].
  simpl in Hc. rewrite Hrun in Hc.
  destruct (Capturer._capture this forError options s) as [r s'].
  destruct Hc as (-> & Hshots & Hd & _ & _ & Hcalls).
  destruct (pipeline_first_call this job s1) as [result Hhead].
  pose proof (pipeline_throws this job s1) as Hthrows.
  rewrite Hcalls. split; [|split; [|split; [|split]]].
  - destruct (Capturer.pipeline this job s1).1; eauto.
  - rewrite Hshots.
    destruct (Capturer.pipeline this job s1).1; by rewrite app_nil_r.
  - intros Hnil. by rewrite Hnil in Hhead.
  - intros Hquiet.
    destruct (Capturer.pipeline this job s1).1 as [data|e]; [done|].
    destruct (proj1 (Hthrows e) eq_refl) as (c & Hlast & Hstat & Hrej).
    apply last_Some_elem_of in Hlast.
    rewrite (Hquiet c Hlast Hstat) in Hrej. done.
  - intros Hnone. rewrite Hd. by eapply resolve_incremented.
Qed.

(** X13.  The paths of an invocation: the raw capture, the check, the
    reads, the crop and its write are asked for the staging path only; the
    directory made is that of the destination, the final write goes to the
    destination, and the thumbnail is generated from the destination to its
    thumbnail path.  No other path is handed to a collaborator. *)
Theorem capture_footprint forError options s job s1 :
  Capturer.resolve this forError options s = (Returned job, s1) →
  Forall (call_in_footprint job)
    (new_calls s (Capturer._capture this forError options s).2) ∧
  job_thumbnailPath job = Capturer._getThumbnailPath (job_screenshotPath job) ∧
  job_tempPath job =
    JS.replace (job_screenshotPath job)
      (default "undefined" (baseScreenshotsPath this)) (tempDirectoryPath this).
Proof.
  intros Hres.
  destruct (resolve_job this _ _ _ _ _ Hres) as (_ & _ & _ & Hthumb & Htemp).
  split; [|done].
  destruct (capture_log this forError options s)
    as [->|(job' & s1' & Hres' & ->)]; [by apply Forall_nil|].
  rewrite Hres in Hres'. injection Hres' as <- <-.
  apply pipeline_footprint.
Qed.

End Outcome.

(** ** Geometry, further *)

Lemma Math_round_mono (x y : Q) :
  (x <= y)%Q → JS.Math_round x ≤ JS.Math_round y.
Proof.
  intros Hle. unfold JS.Math_round. apply Qfloor_resp_le. lra.
Qed.

Lemma Math_round_integer (n : Z) (x : Q) :
  (x == inject_Z n)%Q → JS.Math_round x = n.
Proof.
  intros Hx. apply (rounds_to_unique x); [apply Math_round_rounds|].
  unfold rounds_to. split; lra.
Qed.

(** The dimension chosen is one of the two it was given, and it exceeds the
    window only when both do. *)
Lemma dimension_fits (fullDim documentDim bodyDim : Q) :
  let chosen :=
    Capturer._getDimensionWithoutScrollbar fullDim documentDim bodyDim in
  (chosen = documentDim ∨ chosen = bodyDim) ∧
  ((bodyDim <= fullDim)%Q ∨ (documentDim <= fullDim)%Q → (chosen <= fullDim)%Q) ∧
  ((fullDim < chosen)%Q → (fullDim < bodyDim)%Q ∧ chosen = documentDim).
Proof.
  unfold Capturer._getDimensionWithoutScrollbar, JS.Math_max.
  destruct (JS.gt bodyDim fullDim) eqn:Hb;
    [apply gt_spec in Hb
    |apply not_true_iff_false in Hb; rewrite gt_spec in Hb;
     apply Qnot_lt_le in Hb].
  - split; [by left|]. split; [|done]. intros [Hfit|Hfit]; [lra|done].
  - destruct (JS.gt documentDim fullDim) eqn:Hd;
      [apply gt_spec in Hd
      |apply not_true_iff_false in Hd; rewrite gt_spec in Hd;
       apply Qnot_lt_le in Hd].
    + split; [by right|]. split; [done|]. intros Hover. lra.
    + destruct (Qle_bool documentDim bodyDim) eqn:Hle.
      * split; [by right|]. split; [done|]. intros Hover. lra.
      * split; [by left|]. split; [done|]. intros Hover. lra.
Qed.

(** X15.  With a device pixel ratio that is not negative, the scaled
    rectangle keeps the order of the edges: the top is not below the bottom
    and the left not beyond the right when this holds of the rectangle asked
    for (the scaled rectangle may be empty though the one asked for is not).
    With a ratio of one, edges that are integers are left as they are (the
    edges being Numbers, values of the format). *)
Theorem crop_rectangle_order (crop : CropDimensions) (page : PageDimensions) :
  (0 <= dpr page)%Q →
  ∃ scaled,
    Capturer._getCropDimensions (Some crop) (Some page) = Some scaled ∧
    ((top crop <= bottom crop)%Q → scaled_top scaled ≤ scaled_bottom scaled) ∧
    ((left crop <= right crop)%Q → scaled_left scaled ≤ scaled_right scaled) ∧
    ((dpr page == 1)%Q →
     ∀ t l b r : Z,
       (top crop == inject_Z t)%Q → (left crop == inject_Z l)%Q →
       (bottom crop == inject_Z b)%Q → (right crop == inject_Z r)%Q →
       Binary64.in_format (top crop) → Binary64.in_format (left crop) →
       Binary64.in_format (bottom crop) → Binary64.in_format (right crop) →
       scaled = {| scaled_top := t; scaled_left := l;
                   scaled_bottom := b; scaled_right := r |}).
Proof.
  intros Hdpr. eexists. split; [reflexivity|]. simpl. split; [|split].
  - intros Hle. apply Math_round_mono. by apply mul_mono.
  - intros Hle. apply Math_round_mono. by apply mul_mono.
  - intros Hone t l b r Ht Hl Hb Hr Ft Fl Fb Fr.
    assert (∀ edge (n : Z),
      (edge == inject_Z n)%Q → Binary64.in_format edge →
      JS.Math_round (JS.mul edge (dpr page)) = n) as Hedge.
    { intros edge n Hn Hfmt. apply Math_round_integer.
      unfold JS.mul. rewrite (round_comp (edge * dpr page) edge)
        by (rewrite Hone; lra).
      by rewrite (round_id edge Hfmt). }
    f_equal; by apply Hedge.
Qed.

(** X16.  With a device pixel ratio that is not negative, the client area
    handed to the raw capture is no wider than the window scaled by the
    ratio (the floor of their product as Numbers) as soon as the body or the
    document fits the window, and likewise no higher: it exceeds the scaled
    window only when both are larger. *)
Theorem client_area_within_window (page : PageDimensions) :
  (0 <= dpr page)%Q →
  ∃ area,
    Capturer._getClientAreaDimensions (Some page) = Some area ∧
    ((bodyWidth page <= innerWidth page)%Q
     ∨ (documentWidth page <= innerWidth page)%Q →
     width area ≤ JS.Math_floor (JS.mul (innerWidth page) (dpr page))) ∧
    ((bodyHeight page <= innerHeight page)%Q
     ∨ (documentHeight page <= innerHeight page)%Q →
     height area ≤ JS.Math_floor (JS.mul (innerHeight page) (dpr page))) ∧
    (JS.Math_floor (JS.mul (innerWidth page) (dpr page)) < width area →
     (innerWidth page < bodyWidth page)%Q
     ∧ (innerWidth page < documentWidth page)%Q) ∧
    (JS.Math_floor (JS.mul (innerHeight page) (dpr page)) < height area →
     (innerHeight page < bodyHeight page)%Q
     ∧ (innerHeight page < documentHeight page)%Q).
Proof.
  intros Hdpr. eexists. split; [reflexivity|]. simpl.
  assert (∀ full doc body,
    ((body <= full)%Q ∨ (doc <= full)%Q →
     JS.Math_floor
       (JS.mul (Capturer._getDimensionWithoutScrollbar full doc body)
          (dpr page))
     ≤ JS.Math_floor (JS.mul full (dpr page))) ∧
    (JS.Math_floor (JS.mul full (dpr page))
     < JS.Math_floor
         (JS.mul (Capturer._getDimensionWithoutScrollbar full doc body)
            (dpr page)) →
     (full < body)%Q ∧ (full < doc)%Q)) as Hdim.
  { intros full doc body.
    destruct (dimension_fits full doc body) as (_ & Hfit & _).
    assert ((body <= full)%Q ∨ (doc <= full)%Q →
            JS.Math_floor
              (JS.mul (Capturer._getDimensionWithoutScrollbar full doc body)
                 (dpr page))
            ≤ JS.Math_floor (JS.mul full (dpr page))) as Hle.
    { intros Hor. apply Qfloor_resp_le. apply mul_mono; auto. }
    split; [done|]. intros Hover.
    destruct (Qlt_le_dec full body) as [Hb|Hb];
      [destruct (Qlt_le_dec full doc) as [Hd|Hd]; [done|]|].
    - specialize (Hle (or_intror Hd)). lia.
    - specialize (Hle (or_introl Hb)). lia. }
  split; [apply Hdim|]. split; [apply Hdim|]. split; apply Hdim.
Qed.

(** ** The staging path *)

Lemma prefix_app (p rest : string) : String.prefix p (p ++ rest)%string = true.
Proof.
  induction p as [|a p IH]; simpl; [by destruct rest|].
  destruct (ascii_dec a a); [done|congruence].
Qed.

Lemma index_prefix (p rest : string) :
  String.index 0 p (p ++ rest)%string = Some 0%nat.
Proof.
  destruct p as [|a p]; simpl.
  - by destruct rest.
  - destruct (ascii_dec a a); [|congruence]. by rewrite prefix_app.
Qed.

Lemma substring_whole (s : string) :
  String.substring 0 (String.length s) s = s.
Proof. induction s as [|a s IH]; simpl; [done|]. by rewrite IH. Qed.

Lemma substring_tail (p rest : string) :
  String.substring (String.length p) (String.length rest) (p ++ rest)%string
  = rest.
Proof.
  induction p as [|a p IH]; simpl; [apply substring_whole|done].
Qed.

Lemma substring_empty (s : string) : String.substring 0 0 s = "".
Proof. by destruct s. Qed.

Lemma length_app (p rest : string) :
  String.length (p ++ rest)%string
  = (String.length p + String.length rest)%nat.
Proof. induction p as [|a p IH]; simpl; [done|]. by rewrite IH. Qed.

(** A replacement text without [$] stands for itself. *)
Lemma expand_no_dollar (repl matched before after : string) :
  no_dollar repl = true → JS.expand repl matched before after = repl.
Proof.
  induction repl as [|a repl IH]; simpl; [done|].
  intros [Ha Hrepl]%andb_true_iff. apply negb_true_iff in Ha.
  rewrite Ha. by rewrite IH.
Qed.

(** Replacing the pattern a text begins with. *)
Lemma replace_prefix (p rest repl : string) :
  JS.replace (p ++ rest) p repl = (JS.expand repl p "" rest ++ rest)%string.
Proof.
  unfold JS.replace. rewrite index_prefix, substring_empty. simpl.
  rewrite length_app.
  replace (String.length p + String.length rest - String.length p)%nat
    with (String.length rest) by lia.
  by rewrite substring_tail.
Qed.

Section Staging.
Context `{Collaborators World Image MarkSeed} (this : Capturer).
Implicit Types (s : state World Image MarkSeed) (job : Job MarkSeed)
  (options : Options MarkSeed).

(** X4.  When the destination begins with the base directory, the staging
    path is the destination with that prefix replaced by the temporary
    directory as a replacement text: [$$], [$&], [$`] and [$'] in it are
    expanded.  With no [$] in the temporary directory, the staging path is
    the temporary directory followed by the rest of the destination. *)
Theorem staging_path_of_prefixed forError options s job s1 base rest :
  baseScreenshotsPath this = Some base →
  Capturer.resolve this forError options s = (Returned job, s1) →
  job_screenshotPath job = (base ++ rest)%string →
  job_tempPath job
    = (JS.expand (tempDirectoryPath this) base "" rest ++ rest)%string ∧
  (no_dollar (tempDirectoryPath this) = true →
   job_tempPath job = (tempDirectoryPath this ++ rest)%string).
Proof.
  intros Hbase Hres Hdest.
  destruct (resolve_job this _ _ _ _ _ Hres) as (_ & _ & _ & _ & Htemp).
  rewrite Hbase, Hdest in Htemp. simpl in Htemp.
  rewrite replace_prefix in Htemp. split; [done|].
  intros Hplain. by rewrite Htemp, expand_no_dollar.
Qed.

(** X5.  When the base directory does not occur in the destination, as
    when joining the paths has normalised it away, nothing is replaced: the
    staging path is the destination itself, and the raw capture is asked to
    write the destination, also for a failure capture that is not to be
    published. *)
Theorem staging_path_collapses forError options s job s1 base :
  baseScreenshotsPath this = Some base →
  Capturer.resolve this forError options s = (Returned job, s1) →
  String.index 0 base (job_screenshotPath job) = None →
  job_tempPath job = job_screenshotPath job ∧
  ∃ pageWidth pageHeight fullPage result,
    head (new_calls s (Capturer._capture this forError options s).2) =
      Some (call_takeScreenshot (browserId this) (job_screenshotPath job)
              pageWidth pageHeight fullPage result).
Proof.
  intros Hbase Hres Habsent.
  destruct (resolve_job this _ _ _ _ _ Hres) as (_ & _ & _ & _ & Htemp).
  rewrite Hbase in Htemp. simpl in Htemp. unfold JS.replace in Htemp.
  rewrite Habsent in Htemp. split; [done|].
  destruct (pipeline_first_call this job s1) as [result Hhead].
  destruct (capture_cases this forError options s)
    as [[Hoff _]|(_ & job' & s1' & Hres' & Hc)].
  - unfold enabled in Hoff. rewrite Hbase in Hoff. simpl in Hoff.
    apply negb_false_iff, String.eqb_eq in Hoff. subst base.
    by destruct (job_screenshotPath job).
  - rewrite Hres in Hres'. injection Hres' as <- <-. simpl in Hc.
    destruct (Capturer._capture this forError options s) as [r s'].
    destruct Hc as (_ & _ & _ & _ & _ & Hcalls). simpl.
    rewrite Hcalls, Hhead, Htemp. eauto.
Qed.

End Staging.

Section Order.
Context `{Collaborators World Image MarkSeed} (this : Capturer).
Implicit Types (s : state World Image MarkSeed) (job : Job MarkSeed)
  (options : Options MarkSeed).

Lemma pipeline_in_order job s :
  StronglySorted lt (stage <$> new_calls s (Capturer.pipeline this job s).2) ∧
  (length (new_calls s (Capturer.pipeline this job s).2) ≤ 9)%nat.
Proof.
  unfold_pipeline. exec; tidy_log.
  all: split; [|lia].
  all: repeat (constructor; [|repeat constructor; lia]); constructor.
Qed.

(** X7.  The collaborators are called in the order of the source, each at
    most once in an invocation: the raw capture, the check of the staged
    file, its decoding, the cropper, the write of the cropped image, the
    read-back, the directory, the final write, the thumbnail.  So an
    invocation makes nine calls at most, and a disabled capturer none. *)
Theorem calls_in_source_order forError options s :
  let log := new_calls s (Capturer._capture this forError options s).2 in
  StronglySorted lt (stage <$> log) ∧
  (length log ≤ 9)%nat ∧
  (enabled this = false → log = []).
Proof.
  simpl. split; [|split].
  - destruct (capture_log this forError options s)
      as [->|(job & s1 & _ & ->)]; [constructor|apply pipeline_in_order].
  - destruct (capture_log this forError options s)
      as [->|(job & s1 & _ & ->)]; [simpl; lia|apply pipeline_in_order].
  - intros Hoff.
    destruct (capture_cases this forError options s)
      as [[_ ->]|(Hen & _)]; [apply new_calls_same|congruence].
Qed.

End Order.

(** ** Further properties on the concrete cases *)

Lemma empty_custom_path_ignored_witness :
  customPath (Demo.with_customPath "") = Some "" ∧
  Capturer._capture (Demo.capturer false) false (Demo.with_customPath "")
    (Demo.initial Demo.Working)
  = Demo.plain_run.
Proof.
  split; [reflexivity|].
  rewrite (empty_custom_path_ignored (Demo.capturer false) false
             (Demo.with_customPath "") (Demo.initial Demo.Working) eq_refl).
  reflexivity.
Defined.

Lemma generated_path_before_increment_witness :
  enabled (Demo.capturer false) = true ∧
  Demo.plain_run.1 = Returned (Some "/shots/1.png") ∧
  fileIndex (pathPattern_data Demo.plain_run.2) = 2 ∧
  screenshotPath <$> testEntry_screenshots Demo.plain_run.2 = ["/shots/1.png"].
Proof.
  split; [reflexivity|].
  destruct (generated_path_before_increment (Demo.capturer false) false
              no_options (Demo.initial Demo.Working) eq_refl eq_refl)
    as (base & Hbase & Hc).
  injection Hbase as <-.
  change (Capturer._capture (Demo.capturer false) false no_options
            (Demo.initial Demo.Working)) with Demo.plain_run in Hc.
  assert (∃ returned, Demo.plain_run.1 = Returned returned) as [returned Hret]
    by (eexists; vm_compute; reflexivity).
  assert (∃ record, testEntry_screenshots Demo.plain_run.2 = [] ++ [record])
    as [record Hrec] by (eexists; vm_compute; reflexivity).
  destruct Demo.plain_run as [r s']. simpl in *.
  destruct Hc as (Hd & Hr & Hp).
  split; [by rewrite Hret, (Hr _ Hret)|]. split; [by rewrite Hd|].
  rewrite Hrec. simpl. by rewrite (Hp _ Hrec).
Defined.

Lemma staging_path_of_prefixed_witness :
  baseScreenshotsPath (Demo.capturer false) = Some "/shots" ∧
  job_screenshotPath Demo.first_job = "/shots/1.png" ∧
  no_dollar (tempDirectoryPath (Demo.capturer false)) = true ∧
  job_tempPath Demo.first_job = "/tmp/1.png".
Proof.
  split; [reflexivity|]. split; [reflexivity|]. split; [reflexivity|].
  destruct (staging_path_of_prefixed (H:=Demo.demo_collaborators)
              (Demo.capturer false) false no_options
              (Demo.initial Demo.Working) Demo.first_job
              (Demo.resolved Demo.Working) "/shots" "/1.png"
              eq_refl eq_refl eq_refl) as [_ Hplain].
  exact (Hplain eq_refl).
Defined.

Lemma raw_capture_first_witness :
  enabled (Demo.capturer false) = true ∧
  ∃ result,
    head (new_calls (Demo.initial Demo.Working) Demo.plain_run.2) =
      Some (call_takeScreenshot "chrome" "/tmp/1.png" None None false result).
Proof.
  split; [reflexivity|].
  destruct (raw_capture_first (Demo.capturer false) false no_options
              (Demo.initial Demo.Working) eq_refl)
    as (job & s1 & result & Hres & Hhead).
  vm_compute in Hres. injection Hres as <- <-.
  exists result. exact Hhead.
Defined.

Lemma rejection_propagates_witness :
  testEntry_testRuns (Demo.capturer false) !! browserId (Demo.capturer false)
    = Some {| id := "run-1" |} ∧
  Demo.broken_run.1 = Thrown (Rejected "the browser does not respond").
Proof.
  split; [reflexivity|].
  pose proof (rejection_propagates (Demo.capturer false) false no_options
                (Demo.initial Demo.Broken) {| id := "run-1" |} eq_refl) as Hc.
  change (Capturer._capture (Demo.capturer false) false no_options
            (Demo.initial Demo.Broken)) with Demo.broken_run in Hc.
  assert (last (new_calls (Demo.initial Demo.Broken) Demo.broken_run.2) =
            Some (call_takeScreenshot "chrome" "/tmp/1.png" None None false
                    (Thrown (Rejected "the browser does not respond"))))
    as Hlast by (vm_compute; reflexivity).
  destruct Demo.broken_run as [r s']. simpl in *.
  destruct Hc as [Hthrows _]. apply Hthrows.
  eexists. split; [exact Hlast|]. split; reflexivity.
Defined.

Lemma published_bytes_witness :
  call_writeFile "/shots/1.png" Demo.shot (Returned tt)
    ∈ new_calls (Demo.initial Demo.Working) Demo.plain_run.2.
Proof.
  pose proof (published_bytes (Demo.capturer false) false no_options
                (Demo.initial Demo.Working)) as Hc.
  change (Capturer._capture (Demo.capturer false) false no_options
            (Demo.initial Demo.Working)) with Demo.plain_run in Hc.
  assert (∃ record,
            testEntry_screenshots Demo.plain_run.2 = [] ++ [record] ∧
            screenshotPath record = "/shots/1.png" ∧
            screenshotData record = Some Demo.shot)
    as (record & Hrec & Hpath & Hdata)
    by (eexists; vm_compute; split; [reflexivity|split; reflexivity]).
  destruct Demo.plain_run as [r s']. simpl in *.
  destruct Hc as [_ Hwritten].
  rewrite <- Hpath. exact (Hwritten record Demo.shot Hrec Hdata eq_refl).
Defined.

Lemma thumbnail_when_asked_witness :
  new_calls (Demo.initial Demo.Working) Cases.without_thumbnail_run.2 !! 6%nat
    = Some (call_writeFile "/shots/1.png" Demo.shot (Returned tt)) ∧
  new_calls (Demo.initial Demo.Working) Cases.without_thumbnail_run.2 !! 7%nat
    = None ∧
  ∃ result,
    new_calls (Demo.initial Demo.Working) Demo.plain_run.2 !! 7%nat
      = Some (call_generateThumbnail "/shots/1.png" "/shots/thumbnails/1.png"
                result).
Proof.
  assert (new_calls (Demo.initial Demo.Working) Cases.without_thumbnail_run.2
            !! 6%nat
          = Some (call_writeFile "/shots/1.png" Demo.shot (Returned tt)))
    as Hquiet by (vm_compute; reflexivity).
  assert (new_calls (Demo.initial Demo.Working) Demo.plain_run.2 !! 6%nat
          = Some (call_writeFile "/shots/1.png" Demo.shot (Returned tt)))
    as Hplain by (vm_compute; reflexivity).
  split; [exact Hquiet|]. split.
  - exact (proj1 (thumbnail_when_asked (Demo.capturer false) false
                    Cases.without_thumbnail (Demo.initial Demo.Working))
             6%nat _ _ Hquiet).
  - destruct (proj1 (thumbnail_when_asked (Demo.capturer false) false
                       no_options (Demo.initial Demo.Working))
                6%nat _ _ Hplain) as (result & Hnext & _).
    exists result. exact Hnext.
Defined.

Lemma record_fields_witness :
  testEntry_screenshots Demo.plain_run.2 =
    [{| testRunId := "run-1";
        screenshotPath := "/shots/1.png";
        screenshotData := Some Demo.shot;
        thumbnailPath := "/shots/thumbnails/1.png";
        userAgent := "Chrome";
        screenshot_quarantineAttempt := None;
        takenOnFail := false |}].
Proof.
  pose proof (record_fields (Demo.capturer false) false no_options
                (Demo.initial Demo.Working)) as Hc.
  change (Capturer._capture (Demo.capturer false) false no_options
            (Demo.initial Demo.Working)) with Demo.plain_run in Hc.
  assert (Demo.plain_run.1 = Returned (Some "/shots/1.png")) as Hret
    by (vm_compute; reflexivity).
  assert (call_readFile "/tmp/1.png" (Returned Demo.shot)
            ∈ new_calls (Demo.initial Demo.Working) Demo.plain_run.2) as Hread
    by (apply (list_elem_of_lookup_2 _ 4%nat); vm_compute; reflexivity).
  destruct Demo.plain_run as [r s']. simpl in *.
  destruct (Hc _ Hret) as (run & data & Hrun & Hshots & Hdata).
  vm_compute in Hrun. injection Hrun as <-.
  assert (data = Some Demo.shot) as ->
    by (apply Hdata; exists "/tmp/1.png"; exact Hread).
  exact Hshots.
Defined.

Lemma missing_test_run_witness :
  enabled Cases.orphan_capturer = true ∧
  testEntry_testRuns Cases.orphan_capturer !! browserId Cases.orphan_capturer
    = None ∧
  Cases.orphan_run.1 = Thrown TypeError ∧
  testEntry_screenshots Cases.orphan_run.2 = [] ∧
  fileIndex (pathPattern_data Cases.orphan_run.2) = 2 ∧
  length (new_calls (Demo.initial Demo.Working) Cases.orphan_run.2) = 8%nat.
Proof.
  split; [reflexivity|]. split; [reflexivity|].
  pose proof (missing_test_run Cases.orphan_capturer false no_options
                (Demo.initial Demo.Working) eq_refl eq_refl) as Hc.
  change (Capturer._capture Cases.orphan_capturer false no_options
            (Demo.initial Demo.Working)) with Cases.orphan_run in Hc.
  assert (Forall (λ c, call_rejection c = None)
            (new_calls (Demo.initial Demo.Working) Cases.orphan_run.2))
    as Hquiet by (vm_compute; repeat constructor).
  assert (length (new_calls (Demo.initial Demo.Working) Cases.orphan_run.2)
          = 8%nat) as Hlen by (vm_compute; reflexivity).
  destruct Cases.orphan_run as [r s']. simpl in *.
  destruct Hc as (_ & Hshots & _ & Htype & Hd).
  split; [|split; [exact Hshots|split; [by rewrite (Hd eq_refl)|exact Hlen]]].
  apply Htype. intros c Hin _.
  by apply (proj1 (Forall_forall _ _) Hquiet).
Defined.

Lemma capture_footprint_witness :
  Capturer.resolve (Demo.capturer false) false no_options
    (Demo.initial Demo.Working)
  = (Returned Demo.first_job, Demo.resolved Demo.Working) ∧
  Forall (call_in_footprint Demo.first_job)
    (new_calls (Demo.initial Demo.Working) Demo.plain_run.2) ∧
  Forall (λ c, write_target c = Some "/shots/1.png" ∨
               write_target c = Some "/shots" ∨
               write_target c = Some "/shots/thumbnails/1.png" ∨
               write_target c = Some "/tmp/1.png" ∨
               write_target c = None)
    (new_calls (Demo.initial Demo.Working) Demo.plain_run.2).
Proof.
  split; [reflexivity|].
  destruct (capture_footprint (H:=Demo.demo_collaborators)
              (Demo.capturer false) false no_options
              (Demo.initial Demo.Working) Demo.first_job
              (Demo.resolved Demo.Working) eq_refl) as (Hfoot & _ & _).
  split; [exact Hfoot|].
  eapply Forall_impl; [exact Hfoot|].
  intros [] Hc; simpl in *; subst; auto.
  destruct Hc as [-> ->]. auto.
Defined.

Lemma crop_rectangle_order_witness :
  (0 <= dpr Demo.page)%Q ∧
  (top Demo.rectangle <= bottom Demo.rectangle)%Q ∧
  (left Demo.rectangle <= right Demo.rectangle)%Q ∧
  ∃ scaled,
    Capturer._getCropDimensions (Some Demo.rectangle) (Some Demo.page)
      = Some scaled ∧
    scaled_top scaled ≤ scaled_bottom scaled ∧
    scaled_left scaled ≤ scaled_right scaled.
Proof.
  assert (0 <= dpr Demo.page)%Q as Hdpr by (unfold Qle; simpl; lia).
  assert (top Demo.rectangle <= bottom Demo.rectangle)%Q
    as Hrows by (unfold Qle; simpl; lia).
  assert (left Demo.rectangle <= right Demo.rectangle)%Q
    as Hcols by (vm_compute; intros Hgt; discriminate Hgt).
  split; [exact Hdpr|]. split; [exact Hrows|]. split; [exact Hcols|].
  destruct (crop_rectangle_order Demo.rectangle Demo.page Hdpr)
    as (scaled & Hscaled & Htb & Hlr & _).
  exists scaled. split; [exact Hscaled|]. split; [exact (Htb Hrows)|].
  exact (Hlr Hcols).
Defined.

Lemma client_area_within_window_witness :
  (0 <= dpr Demo.page)%Q ∧
  (bodyWidth Demo.page <= innerWidth Demo.page)%Q ∧
  ∃ area,
    Capturer._getClientAreaDimensions (Some Demo.page) = Some area ∧
    width area ≤ 1536.
Proof.
  assert (0 <= dpr Demo.page)%Q as Hdpr by (unfold Qle; simpl; lia).
  assert (bodyWidth Demo.page <= innerWidth Demo.page)%Q
    as Hfits by (unfold Qle; simpl; lia).
  split; [exact Hdpr|]. split; [exact Hfits|].
  destruct (client_area_within_window Demo.page Hdpr)
    as (area & Harea & Hwidth & _).
  exists area. split; [exact Harea|].
  assert (JS.Math_floor (JS.mul (innerWidth Demo.page) (dpr Demo.page)) = 1536)
    as Hbound by (vm_compute; reflexivity).
  rewrite <- Hbound. exact (Hwidth (or_introl Hfits)).
Defined.

Lemma staging_path_collapses_witness :
  baseScreenshotsPath Cases.relative_capturer = Some "./shots" ∧
  autoTakeOnFails Cases.relative_capturer = true ∧
  String.index 0 "./shots" (job_screenshotPath Cases.relative_job) = None ∧
  job_tempPath Cases.relative_job = "shots/errors/1.png" ∧
  ∃ pageWidth pageHeight fullPage result,
    head (new_calls (Demo.initial Demo.Working)
            (Capturer.captureError (H:=Cases.normalizing_collaborators)
               Cases.relative_capturer no_options
               (Demo.initial Demo.Working)).2) =
      Some (call_takeScreenshot "chrome" "shots/errors/1.png"
              pageWidth pageHeight fullPage result).
Proof.
  split; [reflexivity|]. split; [reflexivity|]. split; [reflexivity|].
  exact (staging_path_collapses (H:=Cases.normalizing_collaborators)
           Cases.relative_capturer true no_options
           (Demo.initial Demo.Working) Cases.relative_job
           Cases.relative_resolved "./shots" eq_refl eq_refl eq_refl).
Defined.
